(** * jolly_scraper: price parsing, scoring, ranking and the browser loops

    A shallow embedding of [scoring.py], [scraper/pipelines.py],
    [scraper/spiders/jolly_spider.py] and [jolly_selenium.py].

    - Python [str] is a list of Unicode code points.
    - Python [float] is IEEE 754 binary64: the kernel's primitive [float],
      specified by [SpecFloat] at [prec = 53], [emax = 1024].
    - Exceptions are explicit: a computation that may raise returns a
      [result].
    - What the site, the browser and the disk answer is a parameter of
      the function that asks; so are the builtins whose algorithm is
      not the repository's: the Unicode tables and [sorted]. *)

From Stdlib Require Import List ZArith NArith PArith Bool Lia Arith.
From Stdlib Require Import Strings.String Strings.Ascii.
From Stdlib Require Import Floats.
From Stdlib Require Import Sorting.Sorted Sorting.Permutation.
Import ListNotations.

Set Implicit Arguments.
Local Open Scope N_scope.

(** ** Python values *)

Module Py.

(** A [str]: the sequence of its code points. *)
Definition str := list N.

(** Source literals are written as UTF-8 byte strings and decoded. *)
Fixpoint utf8_go (pending : nat) (acc : N) (bs : list N) : str :=
  match bs with
  | [] => []
  | b :: t =>
    match pending with
    | O =>
      if b <? 128 then b :: utf8_go 0 0 t
      else if b <? 224 then utf8_go 1 (b - 192) t
      else if b <? 240 then utf8_go 2 (b - 224) t
      else utf8_go 3 (b - 240) t
    | S k =>
      let acc' := acc * 64 + (b - 128) in
      match k with
      | O => acc' :: utf8_go 0 0 t
      | S _ => utf8_go k acc' t
      end
    end
  end.

Definition lit (s : string) : str :=
  utf8_go 0 0 (map N_of_ascii (list_ascii_of_string s)).

Definition str_eqb (a b : str) : bool :=
  if list_eq_dec N.eq_dec a b then true else false.

(** [s.startswith(p)] *)
Fixpoint starts_with (p s : str) : bool :=
  match p, s with
  | [], _ => true
  | _ :: _, [] => false
  | a :: p', b :: s' => (a =? b) && starts_with p' s'
  end.

(** [p in s] for strings: [p] occurs as a contiguous run of [s]. *)
Fixpoint contains (p s : str) : bool :=
  starts_with p s ||
  match s with
  | [] => false
  | _ :: t => contains p t
  end.

(** [s.replace(old, new)] for a non-empty [old]: occurrences are taken
    left to right and do not overlap.  [skip] counts the code points of
    a matched occurrence still to be dropped. *)
Fixpoint replace_from (old new : str) (skip : nat) (s : str) : str :=
  match s with
  | [] => []
  | c :: t =>
    match skip with
    | S k => replace_from old new k t
    | O =>
      if starts_with old s
      then new ++ replace_from old new (List.length old - 1) t
      else c :: replace_from old new 0 t
    end
  end.

Definition replace (old new s : str) : str := replace_from old new 0 s.

(** [str.isspace] on one code point (CPython's [_PyUnicode_IsWhitespace]). *)
Definition is_space (c : N) : bool :=
  ((9 <=? c) && (c <=? 13)) || ((28 <=? c) && (c <=? 32)) ||
  (c =? 133) || (c =? 160) || (c =? 5760) ||
  ((8192 <=? c) && (c <=? 8202)) || (c =? 8232) || (c =? 8233) ||
  (c =? 8239) || (c =? 8287) || (c =? 12288).

Fixpoint lstrip_by (f : N -> bool) (s : str) : str :=
  match s with
  | [] => []
  | c :: t => if f c then lstrip_by f t else s
  end.

Definition strip_by (f : N -> bool) (s : str) : str :=
  rev (lstrip_by f (rev (lstrip_by f s))).

(** [s.strip()] *)
Definition strip (s : str) : str := strip_by is_space s.

(** [s.split(sep)] for a one-character [sep]; [cur] is the segment being
    read.  The result is never empty: [''.split(',') == ['']]. *)
Fixpoint split_go (sep : N) (cur : str) (s : str) : list str :=
  match s with
  | [] => [rev cur]
  | c :: t =>
    if c =? sep then rev cur :: split_go sep [] t
    else split_go sep (c :: cur) t
  end.

Definition split (sep : N) (s : str) : list str := split_go sep [] s.

(** [sep.join(parts)] *)
Fixpoint join (sep : str) (parts : list str) : str :=
  match parts with
  | [] => []
  | [p] => p
  | p :: rest => p ++ sep ++ join sep rest
  end.

(** The tables of the Unicode database that [str.lower] and [float]
    consult: the lower-casing of a string, and the digit value of a
    non-ASCII decimal digit (category Nd). *)
Class UnicodeData := {
  str_lower : str -> str;
  to_decimal : N -> option N
}.

(** Exceptions the modelled code can raise. *)
Inductive exn :=
  | ValueError
  | ZeroDivisionError
  | NoSuchElementException
  | TimeoutException
  | WebDriverException
  | OSError.

Inductive result (A : Type) :=
  | Ok (a : A)
  | Raise (e : exn).
Arguments Ok {A} a.
Arguments Raise {A} e.

Definition bind {A B} (r : result A) (k : A -> result B) : result B :=
  match r with
  | Ok a => k a
  | Raise e => Raise e
  end.

(** *** [float(s)] on a string

    CPython's [PyFloat_FromString]: the string is first made ASCII
    ([_PyUnicode_TransformDecimalAndSpaceToASCII]), single underscores
    between digits are removed, C white space is stripped, and the rest
    is read by [_Py_dg_strtod] or, failing that, as an infinity or a NaN.
    Anything left over is a [ValueError]. *)

Definition is_digit (c : N) : bool := (48 <=? c) && (c <=? 57).

(** [Py_ISSPACE] *)
Definition c_isspace (c : N) : bool := ((9 <=? c) && (c <=? 13)) || (c =? 32).

Fixpoint transform_go {U : UnicodeData} (s : str) : str :=
  match s with
  | [] => []
  | ch :: t =>
    if ch <? 127 then ch :: transform_go t
    else if is_space ch then 32 :: transform_go t
    else match to_decimal ch with
         | Some d => (48 + d) :: transform_go t
         | None => [63]
         end
  end.

Definition transform_decimal_and_space {U : UnicodeData} (s : str) : str :=
  if forallb (fun c => c <? 128) s then s else transform_go s.

(** [_Py_string_to_number_with_underscores]: [prev] is the previous
    character read. *)
Fixpoint underscores_go (prev : N) (s : str) : option str :=
  match s with
  | [] => if prev =? 95 then None else Some []
  | p :: t =>
    if p =? 95 then
      if is_digit prev then underscores_go p t else None
    else if (prev =? 95) && negb (is_digit p) then None
    else option_map (cons p) (underscores_go p t)
  end.

Definition strip_underscores (s : str) : option str :=
  if existsb (N.eqb 95) s then underscores_go 0 s else Some s.

(** The longest run of decimal digits at the head, as digit values. *)
Fixpoint take_digits (s : str) : list N * str :=
  match s with
  | [] => ([], [])
  | c :: t =>
    if is_digit c
    then let '(ds, r) := take_digits t in ((c - 48) :: ds, r)
    else ([], s)
  end.

Definition take_sign (s : str) : bool * str :=
  match s with
  | [] => (false, [])
  | c :: t =>
    if c =? 45 then (true, t)
    else if c =? 43 then (false, t)
    else (false, s)
  end.

Definition digits_value (ds : list N) : Z :=
  fold_left (fun acc d => (10 * acc + Z.of_N d)%Z) ds 0%Z.

Fixpoint drop_zeros (ds : list N) : list N :=
  match ds with
  | [] => []
  | d :: t => if d =? 0 then drop_zeros t else ds
  end.

(** A decimal numeral as [strtod] reads it: sign, digits before and
    after the point, and the exponent. *)
Record decimal := {
  dec_neg : bool;
  dec_int : list N;
  dec_frac : list N;
  dec_exp : Z
}.

(** An exponent part needs at least one digit; without one the [e] is
    not consumed. *)
Definition parse_exponent (s : str) : Z * str :=
  match s with
  | [] => (0%Z, [])
  | c :: t =>
    if (c =? 101) || (c =? 69) then
      let '(neg, t1) := take_sign t in
      let '(ds, r) := take_digits t1 in
      match ds with
      | [] => (0%Z, s)
      | _ :: _ => ((if neg then - digits_value ds else digits_value ds)%Z, r)
      end
    else (0%Z, s)
  end.

Definition MAX_DIGITS : N := 1000000000.

(** [_Py_dg_strtod], the parsing part: [None] is its parse error. *)
Definition strtod_parse (s : str) : option (decimal * str) :=
  let '(neg, s1) := take_sign s in
  let '(ip, s2) := take_digits s1 in
  let '(fp, s3) :=
    match s2 with
    | [] => ([], [])
    | c :: t => if c =? 46 then take_digits t else ([], s2)
    end in
  match ip ++ fp with
  | [] => None
  | _ :: _ =>
    if (MAX_DIGITS <? N.of_nat (List.length (drop_zeros (ip ++ fp))))
       || (MAX_DIGITS <? N.of_nat (List.length fp))
    then None
    else
      let '(e, s4) := parse_exponent s3 in
      Some ({| dec_neg := neg; dec_int := ip; dec_frac := fp; dec_exp := e |}, s4)
  end.

(** The binary64 number nearest to [m * 10 ^ e] (ties to even), with
    overflow to an infinity and underflow to a zero. *)
Definition sf_round (neg : bool) (m : positive) (e : Z) : spec_float :=
  if (0 <=? e)%Z
  then binary_round prec emax neg (m * Z.to_pos (10 ^ e)) 0
  else
    let '(q, ez, l) :=
      SFdiv_core_binary prec emax (Zpos m) 0 (10 ^ (- e)) 0 in
    binary_round_aux prec emax neg q ez l.

Definition sf_of_decimal (d : decimal) : spec_float :=
  match digits_value (dec_int d ++ dec_frac d) with
  | Zpos m =>
    sf_round (dec_neg d) m (dec_exp d - Z.of_nat (List.length (dec_frac d)))
  | _ => S754_zero (dec_neg d)
  end.

Definition float_of_decimal (d : decimal) : float := SF2Prim (sf_of_decimal d).

Definition ascii_lower (c : N) : N :=
  if (65 <=? c) && (c <=? 90) then c + 32 else c.

(** [case_insensitive_match]: the rest of [s] after the lower-case word
    [t], if [s] starts with it in any case. *)
Fixpoint ci_match (t s : str) : option str :=
  match t, s with
  | [], _ => Some s
  | _ :: _, [] => None
  | a :: t', b :: s' => if ascii_lower b =? a then ci_match t' s' else None
  end.

(** [_Py_parse_inf_or_nan] *)
Definition parse_inf_or_nan (s : str) : option (float * str) :=
  let '(neg, s1) := take_sign s in
  match ci_match (lit "inf") s1 with
  | Some r =>
    let r' := match ci_match (lit "inity") r with
              | Some r2 => r2
              | None => r
              end in
    Some (if neg then neg_infinity else infinity, r')
  | None =>
    match ci_match (lit "nan") s1 with
    | Some r => Some (nan, r)
    | None => None
    end
  end.

Definition float_of_str {U : UnicodeData} (s : str) : result float :=
  match strip_underscores (transform_decimal_and_space s) with
  | None => Raise ValueError
  | Some a =>
    match strip_by c_isspace a with
    | [] => Raise ValueError
    | b =>
      match strtod_parse b with
      | Some (d, []) => Ok (float_of_decimal d)
      | Some (_, _ :: _) => Raise ValueError
      | None =>
        match parse_inf_or_nan b with
        | Some (x, []) => Ok x
        | _ => Raise ValueError
        end
      end
    end
  end.

(** [float(n)] for a non-negative [int]: the nearest binary64. *)
Definition float_of_nat (n : nat) : float :=
  SF2Prim (binary_normalize prec emax (Z.of_nat n) 0 false).

(** [x / y] on floats raises on a zero divisor. *)
Definition truediv (x y : float) : result float :=
  if (y =? 0)%float then Raise ZeroDivisionError else Ok (x / y)%float.

End Py.


(** ** [scoring.py] *)

Module Scoring.
Import Py.

(** The record the spider yields (a [dict] with these ten keys).  A
    field is [None] when the key is missing or holds Python's [None];
    [cancel_policy], [accommodation_types] and [hotel_features] are
    built by [re.sub], [join] and always hold a string when present. *)
Record hotel := {
  detail_page_url : option str;
  hotel_name : option str;
  price : option str;
  location : option str;
  accommodation_types : option str;
  checkin_time : option str;
  checkout_time : option str;
  hotel_features : option str;
  cancel_policy : option str;
  recomended_hotel : option str
}.

(** [hotel.get(key, "")] for a field that holds a string when present. *)
Definition get_str (field : option str) : str :=
  match field with
  | Some s => s
  | None => []
  end.

Definition dot : N := 46.
Definition comma : N := 44.

(** The constants [0.05] and [0.3] are not binary64 numbers; these are
    the doubles the literals denote. *)
Definition c_0_05 : float := 0x1.999999999999ap-5%float.
Definition c_0_3 : float := 0x1.3333333333333p-2%float.

Section WithUnicode.
Context {U : UnicodeData}.

(** The string handed to [float] by [parse_price]. *)
Definition cleaned_str (price_str : str) : str :=
  let price_str := strip (replace (lit " TL") [] price_str) in
  let price_str := replace [comma] [dot] price_str in
  let parts := split dot price_str in
  if (1 <? List.length parts)%nat
  then
    let integer_part := join [] (removelast parts) in
    let decimal_part := last parts [] in
    integer_part ++ [dot] ++ decimal_part
  else nth 0 parts [].

(** [parse_price]; the argument is [None] for Python's [None]. *)
Definition parse_price (price_str : option str) : result float :=
  match price_str with
  | None => Ok 0%float
  | Some [] => Ok 0%float
  | Some s =>
    match float_of_str (cleaned_str s) with
    | Ok x => Ok x
    | Raise ValueError => Ok 0%float
    | Raise e => Raise e
    end
  end.

(** [compute_base_score]: the running total is threaded through the
    four steps in the order of the source. *)
Definition score_cancel (h : hotel) (base_score : float) : float :=
  let cancel_policy := get_str (cancel_policy h) in
  if contains (lit "Risksiz rezervasyon") cancel_policy
  then (base_score + 1)%float else base_score.

Definition score_recommended (h : hotel) (base_score : float) : float :=
  match recomended_hotel h with
  | Some _ => (base_score + 1)%float
  | None => base_score
  end.

Definition score_features (h : hotel) (base_score : float) : float :=
  let features_str := get_str (hotel_features h) in
  match features_str with
  | [] => base_score
  | _ :: _ =>
    let features_list := map strip (split comma features_str) in
    (base_score + c_0_05 * float_of_nat (List.length features_list))%float
  end.

Definition score_accommodation (h : hotel) (base_score : float) : float :=
  let accom := str_lower (strip (get_str (accommodation_types h))) in
  if contains (lit "ultra her şey dahil") accom then (base_score + 2)%float
  else if contains (lit "her şey dahil") accom then (base_score + 1.5)%float
  else if contains (lit "yarım pansiyon") accom then (base_score + 1)%float
  else if contains (lit "oda kahvaltı") accom then (base_score + 0.5)%float
  else if contains (lit "sadece oda") accom then (base_score + c_0_3)%float
  else base_score.

Definition compute_base_score (h : hotel) : float :=
  let base_score := 0%float in
  let base_score := score_cancel h base_score in
  let base_score := score_recommended h base_score in
  let base_score := score_features h base_score in
  score_accommodation h base_score.

Definition compute_final_score (h : hotel) : result float :=
  bind (parse_price (price h)) (fun price_val =>
  let base_score := compute_base_score h in
  let price_val := if (price_val <=? 0)%float then 1%float else price_val in
  truediv base_score price_val).

End WithUnicode.

(** Unicode lower-casing restricted to U+0000..U+017F (Basic Latin,
    Latin-1 Supplement, Latin Extended-A); other code points are left
    as they are.  No code point of that range above U+007E is a decimal
    digit. *)
Definition lower_cp (c : N) : list N :=
  if (65 <=? c) && (c <=? 90) then [c + 32]
  else if (192 <=? c) && (c <=? 222) && negb (c =? 215) then [c + 32]
  else if c =? 304 then [105; 775]
  else if c =? 376 then [255]
  else if ((256 <=? c) && (c <=? 311) || (330 <=? c) && (c <=? 375))
          && N.even c then [c + 1]
  else if ((313 <=? c) && (c <=? 328) || (377 <=? c) && (c <=? 382))
          && N.odd c then [c + 1]
  else [c].

Definition latin_unicode : UnicodeData :=
  {| str_lower := fun s => flat_map lower_cp s;
     to_decimal := fun _ => None |}.


End Scoring.

(** ** [scraper/pipelines.py] *)

Module Pipelines.
Import Py Scoring.

(** A hotel dict after [hotel["final_score"] = ...]. *)
Record scored := {
  item : hotel;
  final_score : float
}.

(** *** The builtin [sorted] *)

(** The two orders on records with a float key. *)
Definition ascending (A : Type) (key : A -> float) (a b : A) : Prop :=
  (key a <=? key b)%float = true.

Definition descending (A : Type) (key : A -> float) (a b : A) : Prop :=
  (key b <=? key a)%float = true.

(** The records whose key equals [k], in their order. *)
Definition tied (A : Type) (key : A -> float) (k : float) (l : list A)
  : list A :=
  filter (fun x => (key x =? k)%float) l.

(** No key is NaN: [<] orders the keys totally. *)
Definition total_keys (A : Type) (key : A -> float) (l : list A) : Prop :=
  Forall (fun x => is_nan (key x) = false) l.

(** No key is [<] the key before it: what [list.sort] takes for one
    ascending run. *)
Fixpoint one_run (A : Type) (key : A -> float) (l : list A) : bool :=
  match l with
  | a :: (b :: _) as t => negb (key b <? key a)%float && one_run key t
  | _ => true
  end.

(** [sorted(xs, key=key, reverse=reverse)] on float keys.  The builtin
    is [list.sort], which compares keys with [<] only; how it merges
    its runs is CPython's own and has changed between versions, and on
    keys that [<] does not order (a NaN among them) so has its result.
    It is a parameter, with what every version does:
    - the result is a rearrangement of the argument;
    - a list that is one ascending run is returned as it is; with
      [reverse=True] the list is reversed before and after sorting, so
      the run is looked for in the reversed list;
    - when no key is NaN the result is in order, and records with
      equal keys keep their order (the sort is stable). *)
Class ListSort := {
  sorted : forall A : Type, (A -> float) -> bool -> list A -> list A;
  sorted_permutes :
    forall (A : Type) (key : A -> float) (reverse : bool) (l : list A),
      Permutation (sorted key reverse l) l;
  sorted_keeps_run :
    forall (A : Type) (key : A -> float) (reverse : bool) (l : list A),
      one_run key (if reverse then rev l else l) = true ->
      sorted key reverse l = l;
  sorted_orders :
    forall (A : Type) (key : A -> float) (reverse : bool) (l : list A),
      total_keys key l ->
      StronglySorted (if reverse then descending key else ascending key)
                     (sorted key reverse l);
  sorted_is_stable :
    forall (A : Type) (key : A -> float) (reverse : bool) (l : list A),
      total_keys key l ->
      forall k : float, tied key k (sorted key reverse l) = tied key k l
}.

Arguments sorted {ListSort A} key reverse l.
Arguments sorted_permutes {ListSort A} key reverse l.
Arguments sorted_keeps_run {ListSort A} key reverse l _.
Arguments sorted_orders {ListSort A} key reverse l _.
Arguments sorted_is_stable {ListSort A} key reverse l _ k.

(** One such sort, to run examples with: a stable insertion sort with
    the same comparison, between the two reversals when
    [reverse=True]. *)
Section Sorted.
Variable A : Type.
Variable key : A -> float.

Fixpoint insert (x : A) (l : list A) : list A :=
  match l with
  | [] => [x]
  | y :: t => if (key y <? key x)%float then y :: insert x t else x :: y :: t
  end.

Fixpoint sort_asc (l : list A) : list A :=
  match l with
  | [] => []
  | x :: t => insert x (sort_asc t)
  end.

Definition insertion_sorted (reverse : bool) (l : list A) : list A :=
  if reverse then rev (sort_asc (rev l)) else sort_asc l.

End Sorted.

(** *** Writing the output *)

(** The calls of [close_spider] that touch the disk; each may raise. *)
Record output_env := {
  (** [os.makedirs(d, exist_ok=True)] *)
  makedirs : str -> result unit;
  (** [open(path, "w", encoding="utf-8")] *)
  open_w : str -> result unit;
  (** [json.dump(records, out, ensure_ascii=False, indent=4)] into the
      file opened at [path], and the close of the file *)
  json_dump : str -> list scored -> result unit
}.

Definition slash : N := 47.

(** [p[:p.rfind("/") + 1]], reversed; the argument is [p] reversed. *)
Fixpoint from_slash (s : str) : str :=
  match s with
  | [] => []
  | c :: t => if c =? slash then s else from_slash t
  end.

(** [os.path.dirname(p)], as [posixpath] has it. *)
Definition dirname (p : str) : str :=
  let head := from_slash (rev p) in
  if forallb (N.eqb slash) head then rev head
  else rev (lstrip_by (N.eqb slash) head).

(** [f"output/{spider.destination}_scored.json"] *)
Definition output_path (destination : str) : str :=
  lit "output/" ++ destination ++ lit "_scored.json".

(** [os.makedirs(os.path.dirname(output_path), exist_ok=True)] and the
    [with open(...) as out: json.dump(...)] that follows. *)
Definition write_json (env : output_env) (output_path : str)
    (records : list scored) : result unit :=
  bind (makedirs env (dirname output_path)) (fun _ =>
  bind (open_w env output_path) (fun _ =>
  json_dump env output_path records)).

(** [ScorePipeline]: the state is [self.hotels]. *)
Record ScorePipeline := { hotels : list hotel }.

Definition init : ScorePipeline := {| hotels := [] |}.

Definition process_item (self : ScorePipeline) (it : hotel) : ScorePipeline :=
  {| hotels := hotels self ++ [it] |}.

Section WithBuiltins.
Context {U : UnicodeData} {S : ListSort}.

(** The loop [for hotel in self.hotels: hotel["final_score"] = ...]. *)
Fixpoint score_all (hs : list hotel) : result (list scored) :=
  match hs with
  | [] => Ok []
  | h :: t =>
    bind (compute_final_score h) (fun f =>
    bind (score_all t) (fun r =>
    Ok ({| item := h; final_score := f |} :: r)))
  end.

(** [close_spider]: the file written and the records in it. *)
Definition close_spider (env : output_env) (destination : str)
    (self : ScorePipeline) : result (str * list scored) :=
  bind (score_all (hotels self)) (fun scored_hotels =>
  let hotels_sorted := sorted final_score true scored_hotels in
  let top_10_hotels := firstn 10 hotels_sorted in
  let output_path := output_path destination in
  bind (write_json env output_path top_10_hotels) (fun _ =>
  Ok (output_path, top_10_hotels))).

End WithBuiltins.

End Pipelines.

(** ** [scraper/spiders/jolly_spider.py] *)

Module Spider.
Import Py Scoring.

(** What the browser and the selector answer on one detail page.  A
    lookup that may raise is a [result]. *)
Record detail_page := {
  (** [wait.until(presence_of_element_located(price)).text] *)
  wait_price : result str;
  (** [find_element(cancelPolicy-badge).get_attribute("data-content")] *)
  cancel_policy_badge : result (option str);
  (** [find_element(detailrecommend).get_attribute("data-content")] *)
  detail_recommend : result (option str);
  (** [find_element(genel-bilgiler tab).click()] *)
  general_info_tab : result unit;
  sel_hotel_name : option str;
  sel_location : option str;
  sel_accommodation : list str;
  sel_checkin : option str;
  sel_checkout : option str;
  sel_features : list str
}.

(** [re.sub(r"<[^>]*>", "", s)]: a tag runs from a [<] to the first
    [>] after it; [inside] tells that a tag is being dropped. *)
Fixpoint strip_tags_go (inside : bool) (s : str) : str :=
  match s with
  | [] => []
  | c :: t =>
    if inside then strip_tags_go (negb (c =? 62)) t
    else if (c =? 60) && existsb (N.eqb 62) t then strip_tags_go true t
    else c :: strip_tags_go false t
  end.

Definition strip_tags (s : str) : str := strip_tags_go false s.

(** [sep.join(t.strip() for t in l if t.strip())] *)
Definition join_stripped (sep : str) (l : list str) : str :=
  join sep (filter (fun t => negb (str_eqb t [])) (map strip l)).

(** The URL [parse_hotel_details] navigates to. *)
Definition absolute_url (partial_url : str) : str :=
  if starts_with (lit "/") partial_url
  then lit "https://www.jollytur.com" ++ partial_url
  else partial_url.

Section WithSite.
(** [driver.get(url)]: the page a URL leads to. *)
Variable site : str -> result detail_page.

Definition parse_hotel_details (partial_url : str) : result (option hotel) :=
  let full_url := absolute_url partial_url in
  bind (site full_url) (fun page =>
  bind (wait_price page) (fun price =>
  bind (cancel_policy_badge page) (fun cancel_policy_html =>
  let cancel_policy :=
    strip (strip_tags (match cancel_policy_html with
                       | Some s => s
                       | None => []
                       end)) in
  bind (match detail_recommend page with
        | Ok a => Ok a
        | Raise NoSuchElementException => Ok None
        | Raise e => Raise e
        end) (fun recomended_hotel =>
  match general_info_tab page with
  | Raise NoSuchElementException => Ok None
  | Raise e => Raise e
  | Ok _ =>
    Ok (Some
      {| detail_page_url := Some full_url;
         hotel_name := option_map strip (sel_hotel_name page);
         price := Some price;
         location := sel_location page;
         accommodation_types := Some (join_stripped [] (sel_accommodation page));
         checkin_time := sel_checkin page;
         checkout_time := sel_checkout page;
         hotel_features := Some (join_stripped (lit ", ") (sel_features page));
         cancel_policy := Some cancel_policy;
         recomended_hotel := recomended_hotel |})
  end)))).

(** The loop of [parse] over [hotel_urls]: the records yielded, and
    whether the loop ran to its end ([Ok], after which the browser is
    closed) or an exception left the generator. *)
Fixpoint parse_details (hotel_urls : list str) : list hotel * result unit :=
  match hotel_urls with
  | [] => ([], Ok tt)
  | url :: rest =>
    match parse_hotel_details url with
    | Raise e => ([], Raise e)
    | Ok None => parse_details rest
    | Ok (Some detail_data) =>
      let '(ys, r) := parse_details rest in (detail_data :: ys, r)
    end
  end.

End WithSite.

End Spider.

(** ** [jolly_selenium.py] *)

Module Selenium.
Import Py.

(** *** The month-paging loop of [select_dates] *)

(** What the date picker shows after a number of clicks on its "next"
    arrow. *)
Record calendar_view := {
  month_header : result str;
  year_header : result str;
  next_arrow : result unit
}.

Inductive step_result :=
  | Break
  | Continue
  | Throw (e : exn).

(** One pass through the body of [while True]. *)
Definition paging_body (view : calendar_view) (target_month target_year : str)
  : step_result :=
  match month_header view with
  | Raise e => Throw e
  | Ok current_month =>
    match year_header view with
    | Raise e => Throw e
    | Ok current_year =>
      if str_eqb current_month target_month && str_eqb current_year target_year
      then Break
      else match next_arrow view with
           | Raise e => Throw e
           | Ok _ => Continue
           end
    end
  end.

(** The loop run for at most [fuel] passes from the state reached after
    [clicks] clicks: [None] when it is still running, otherwise the
    number of clicks made when it broke, or the exception. *)
Fixpoint paging_loop (calendar : nat -> calendar_view)
    (target_month target_year : str) (fuel clicks : nat)
  : option (result nat) :=
  match fuel with
  | O => None
  | S fuel' =>
    match paging_body (calendar clicks) target_month target_year with
    | Break => Some (Ok clicks)
    | Throw e => Some (Raise e)
    | Continue => paging_loop calendar target_month target_year fuel' (S clicks)
    end
  end.

(** *** [scroll_and_click_until_all_displayed] *)

(** What the result page answers, as a function of the number of
    "load more" clicks made and of the pixels scrolled. *)
Record listing_page := {
  (** [driver.find_element(By.XPATH, status_xpath)] *)
  find_status : nat -> result unit;
  (** [is_in_viewport(element)] *)
  in_viewport : nat -> Z -> result bool;
  (** [driver.execute_script("window.scrollBy(0, 550);")] *)
  scroll_by : nat -> Z -> result unit;
  (** [status_element.text] *)
  status_text : nat -> result str;
  (** [find_element(next_button_xpath)] followed by [.click()] *)
  click_next : nat -> result unit
}.

Definition scroll_step : Z := 550.
Definition max_scrolls : nat := 50.

(** The [while] of [scroll_until_element_visible]; [remaining] is
    [max_scrolls - scroll_count].  Returns the scroll position reached.
    The scroll script is outside every [try]: what it raises leaves
    the function. *)
Fixpoint scroll_while (page : listing_page) (clicks : nat)
    (remaining : nat) (y : Z) : result Z :=
  match in_viewport page clicks y with
  | Raise e => Raise e
  | Ok true => Ok y
  | Ok false =>
    match remaining with
    | O => Ok y
    | S r =>
      match scroll_by page clicks y with
      | Raise e => Raise e
      | Ok _ => scroll_while page clicks r (y + scroll_step)%Z
      end
    end
  end.

(** The element if it ended up in view, and the scroll position. *)
Definition scroll_until_element_visible (page : listing_page)
    (clicks : nat) (y : Z) : result (bool * Z) :=
  match find_status page clicks with
  | Raise _ => Ok (false, y)
  | Ok _ =>
    bind (scroll_while page clicks max_scrolls y) (fun y' =>
    bind (in_viewport page clicks y') (fun v => Ok (v, y')))
  end.

Inductive halt :=
  | AllDisplayed
  | StatusNotVisible
  | ClickFailed.

(** How the loader ends: why it halted, the "load more" clicks made,
    and the scroll position. *)
Record loader_end := {
  why : halt;
  clicks_made : nat;
  scrolled : Z
}.

Section WithUnicode.
Context {U : UnicodeData}.

Fixpoint loader_loop (page : listing_page) (fuel clicks : nat) (y : Z)
  : option (result loader_end) :=
  match fuel with
  | O => None
  | S fuel' =>
    match scroll_until_element_visible page clicks y with
    | Raise e => Some (Raise e)
    | Ok (false, y') =>
      Some (Ok {| why := StatusNotVisible; clicks_made := clicks; scrolled := y' |})
    | Ok (true, y') =>
      match status_text page clicks with
      | Raise e => Some (Raise e)
      | Ok text =>
        let status_text := str_lower (strip text) in
        if contains (lit "tamamını görüntülediniz") status_text
        then Some (Ok {| why := AllDisplayed; clicks_made := clicks; scrolled := y' |})
        else
          match click_next page clicks with
          | Raise _ =>
            Some (Ok {| why := ClickFailed; clicks_made := clicks; scrolled := y' |})
          | Ok _ => loader_loop page fuel' (S clicks) y'
          end
      end
    end
  end.

Definition scroll_and_click_until_all_displayed (page : listing_page)
    (fuel : nat) : option (result loader_end) :=
  loader_loop page fuel 0 0%Z.

End WithUnicode.


End Selenium.

(** *** [adjust_room_count] *)

Module RoomCount.
Import Py.

(** The room dropdown of the search form, over the states [W] of the
    page.  Each field is one call of the driver; a click leads to the
    next state of the page. *)
Record room_widget (W : Type) := {
  (** [wait.until(element_to_be_clickable(person-count))] *)
  wait_dropdown : W -> result unit;
  (** [room_dropdown.click()] *)
  click_dropdown : W -> result W;
  (** [int(wait.until(presence_of_element_located(adult_xpath)).text.strip())] *)
  wait_adult_number : W -> result Z;
  (** [wait.until(element_to_be_clickable(dec)).click()] *)
  click_dec : W -> result W;
  (** [int(driver.find_element(adult_xpath).text.strip())] *)
  find_adult_number : W -> result Z;
  (** [wait.until(element_to_be_clickable(inc)).click()] *)
  click_inc : W -> result W
}.

Arguments wait_dropdown {W} _ _.
Arguments click_dropdown {W} _ _.
Arguments wait_adult_number {W} _ _.
Arguments click_dec {W} _ _.
Arguments find_adult_number {W} _ _.
Arguments click_inc {W} _ _.

Section WithWidget.
Variable W : Type.
Variable widget : room_widget W.

(** [while current_adult_count > 1], run for at most [fuel] passes:
    [None] when it is still running. *)
Fixpoint dec_loop (fuel : nat) (w : W) (current_adult_count : Z)
  : option (result W) :=
  match fuel with
  | O => None
  | S fuel' =>
    if (1 <? current_adult_count)%Z then
      match click_dec widget w with
      | Raise e => Some (Raise e)
      | Ok w' =>
        match find_adult_number widget w' with
        | Raise e => Some (Raise e)
        | Ok current => dec_loop fuel' w' current
        end
      end
    else Some (Ok w)
  end.

(** [for _ in range(n)] *)
Fixpoint inc_loop (n : nat) (w : W) : result W :=
  match n with
  | O => Ok w
  | S n' => bind (click_inc widget w) (inc_loop n')
  end.

Definition adjust_room_count (fuel : nat) (w : W) (adult_count : Z)
  : option (result W) :=
  let adult_count := if (9 <? adult_count)%Z then 9%Z else adult_count in
  match wait_dropdown widget w with
  | Raise e => Some (Raise e)
  | Ok _ =>
    match bind (click_dropdown widget w) (click_dropdown widget) with
    | Raise e => Some (Raise e)
    | Ok w' =>
      match wait_adult_number widget w' with
      | Raise e => Some (Raise e)
      | Ok current_adult_count =>
        match dec_loop fuel w' current_adult_count with
        | None => None
        | Some (Raise e) => Some (Raise e)
        | Some (Ok w'') =>
          Some (inc_loop (Z.to_nat (adult_count - 1)) w'')
        end
      end
    end
  end.

End WithWidget.

Arguments dec_loop {W} widget fuel w current_adult_count.
Arguments inc_loop {W} widget n w.
Arguments adjust_room_count {W} widget fuel w adult_count.

(** A dropdown whose state is the number it shows: the buttons move it
    by one between [lo] and [hi]. *)
Definition counter_widget (lo hi : Z) : room_widget Z :=
  {| wait_dropdown := fun _ => Ok tt;
     click_dropdown := fun s => Ok s;
     wait_adult_number := fun s => Ok s;
     click_dec := fun s => Ok (Z.max lo (s - 1));
     find_adult_number := fun s => Ok s;
     click_inc := fun s => Ok (Z.min hi (s + 1)) |}.

End RoomCount.

Unset Implicit Arguments.

(** ** What the specification says, in its own terms *)

Module Contract.
Import Py Scoring.

(** The text of a price "D.DDD,DD TL": a first group of digits, further
    groups each after a dot, a comma, the decimals and the suffix. *)
Definition digit_char (d : N) : N := 48 + d.
Definition digits_str (ds : list N) : str := map digit_char ds.
Definition is_digits (ds : list N) : Prop := Forall (fun d => d < 10) ds.

Definition price_text (g0 : list N) (gs : list (list N)) (frac : list N) : str :=
  digits_str g0 ++ flat_map (fun g => dot :: digits_str g) gs
  ++ comma :: digits_str frac ++ lit " TL".

(** The binary64 number nearest to [m * 10 ^ e], for [0 <= m]. *)
Definition nearest_binary64 (m e : Z) : float :=
  SF2Prim match m with
          | Zpos p => sf_round false p e
          | _ => S754_zero false
          end.

(** The number of commas of a feature string. *)
Definition count_commas (s : str) : nat := count_occ N.eq_dec s comma.

(** A record that has nothing but its feature string. *)
Definition with_features (f : option str) : hotel :=
  {| detail_page_url := None; hotel_name := None; price := None;
     location := None; accommodation_types := None;
     checkin_time := None; checkout_time := None;
     hotel_features := f; cancel_policy := None; recomended_hotel := None |}.

(** The doubles that the decimals [0.10] and [4.10] denote. *)
Definition c_0_10 : float := 0x1.999999999999ap-4%float.
Definition c_4_10 : float := 0x1.0666666666666p+2%float.

(** The four contributions of the base score, each read off one field. *)
Definition cancel_bonus (cancel_policy : option str) : float :=
  if contains (lit "Risksiz rezervasyon") (get_str cancel_policy)
  then 1%float else 0%float.

Definition recommend_bonus (recomended_hotel : option str) : float :=
  match recomended_hotel with
  | Some _ => 1%float
  | None => 0%float
  end.

Definition feature_tokens (features : str) : list str := split comma features.

Definition feature_bonus (hotel_features : option str) : float :=
  match hotel_features with
  | None | Some [] => 0%float
  | Some s => (c_0_05 * float_of_nat (List.length (feature_tokens s)))%float
  end.

(** The accommodation table in its order of precedence. *)
Definition accommodation_table : list (str * float) :=
  [ (lit "ultra her şey dahil", 2%float);
    (lit "her şey dahil", 1.5%float);
    (lit "yarım pansiyon", 1%float);
    (lit "oda kahvaltı", 0.5%float);
    (lit "sadece oda", c_0_3) ].

(** The first row whose phrase occurs in the text decides. *)
Definition accommodation_bonus (lowered : str) : float :=
  match find (fun row => contains (fst row) lowered) accommodation_table with
  | Some row => snd row
  | None => 0%float
  end.
End Contract.

(** ** Facts about the string operations and [float] *)

Module PyFacts.
Import Py Contract.

Lemma lstrip_by_noop (f : N -> bool) (s : str) :
  Forall (fun c => f c = false) s -> lstrip_by f s = s.
Proof. destruct 1 as [|c t Hc _]; simpl; [reflexivity|now rewrite Hc]. Qed.

Lemma strip_by_noop (f : N -> bool) (s : str) :
  Forall (fun c => f c = false) s -> strip_by f s = s.
Proof.
  intros H. unfold strip_by. rewrite (lstrip_by_noop f s H).
  rewrite lstrip_by_noop, rev_involutive; [reflexivity|].
  now apply Forall_rev.
Qed.

Lemma replace_suffix_TL (body : str) :
  ~ In 32 body -> replace (lit " TL") [] (body ++ lit " TL") = body.
Proof.
  change (lit " TL") with [32; 84; 76]. unfold replace.
  induction body as [|c b IH]; intros Hn; [reflexivity|].
  simpl app. cbn [replace_from starts_with].
  destruct (N.eqb_spec 32 c) as [E|_]; [exfalso; apply Hn; left; symmetry; exact E|].
  cbn [andb]. f_equal. apply IH. intros Hi; apply Hn; now right.
Qed.

Lemma replace_char (a b : N) (s : str) :
  replace [a] [b] s = map (fun c => if c =? a then b else c) s.
Proof.
  unfold replace. induction s as [|c t IH]; [reflexivity|].
  cbn [replace_from starts_with List.length Nat.sub map].
  rewrite N.eqb_sym. destruct (c =? a); cbn [andb app]; now rewrite IH.
Qed.

Lemma split_go_segment (sep : N) (seg rest cur : str) :
  ~ In sep seg ->
  split_go sep cur (seg ++ rest) = split_go sep (rev seg ++ cur) rest.
Proof.
  revert cur; induction seg as [|c t IH]; intros cur Hn; [reflexivity|].
  simpl. destruct (N.eqb_spec c sep) as [E|_]; [exfalso; apply Hn; left; exact E|].
  rewrite IH by (intros Hi; apply Hn; now right).
  now rewrite <- app_assoc.
Qed.

Lemma split_go_groups (sep : N) (segs : list str) (cur : str) :
  Forall (fun seg => ~ In sep seg) segs ->
  split_go sep cur (flat_map (fun seg => sep :: seg) segs) = rev cur :: segs.
Proof.
  intros H; revert cur; induction H as [|seg segs Hs _ IH]; intros cur;
    [reflexivity|].
  cbn [flat_map app split_go]. rewrite N.eqb_refl. f_equal.
  rewrite split_go_segment by assumption.
  now rewrite IH, app_nil_r, rev_involutive.
Qed.

Lemma split_groups (sep : N) (seg0 : str) (segs : list str) :
  Forall (fun seg => ~ In sep seg) (seg0 :: segs) ->
  split sep (seg0 ++ flat_map (fun seg => sep :: seg) segs) = seg0 :: segs.
Proof.
  intros H. inversion_clear H as [|? ? H0 Hs]. unfold split.
  rewrite split_go_segment by assumption.
  now rewrite split_go_groups, app_nil_r, rev_involutive.
Qed.

Lemma join_nil_concat (parts : list str) : join [] parts = List.concat parts.
Proof.
  induction parts as [|p [|q rest] IH]; [reflexivity| |].
  - simpl. now rewrite app_nil_r.
  - change (join [] (p :: q :: rest)) with (p ++ [] ++ join [] (q :: rest)).
    now rewrite IH.
Qed.

Lemma digit_char_is_digit (d : N) : d < 10 -> is_digit (digit_char d) = true.
Proof.
  intros H. unfold is_digit, digit_char.
  apply andb_true_intro; split; apply N.leb_le; lia.
Qed.

Lemma take_digits_digits (ds : list N) (rest : str) :
  is_digits ds ->
  match rest with [] => True | c :: _ => is_digit c = false end ->
  take_digits (digits_str ds ++ rest) = (ds, rest).
Proof.
  intros H Hr; induction H as [|d ds Hd _ IH]; simpl.
  - destruct rest as [|c r]; [reflexivity|]. simpl. now rewrite Hr.
  - rewrite (digit_char_is_digit d Hd), IH. unfold digit_char.
    f_equal. f_equal. lia.
Qed.

Lemma digits_str_forall (P : N -> Prop) (ds : list N) :
  (forall d, d < 10 -> P (digit_char d)) -> is_digits ds ->
  Forall P (digits_str ds).
Proof.
  intros HP H. unfold digits_str. apply Forall_map.
  eapply Forall_impl; [|exact H]. exact HP.
Qed.

Lemma digits_fold_nonneg (ds : list N) (a : Z) :
  (0 <= a)%Z ->
  (0 <= fold_left (fun acc d => (10 * acc + Z.of_N d)%Z) ds a)%Z.
Proof.
  revert a; induction ds as [|d t IH]; intros a Ha; cbn [fold_left];
    [exact Ha|].
  apply IH. lia.
Qed.

Lemma digits_value_nonneg (ds : list N) : (0 <= digits_value ds)%Z.
Proof. apply digits_fold_nonneg. lia. Qed.

Ltac n_bool :=
  repeat match goal with
         | |- context [N.leb ?a ?b] => destruct (N.leb_spec a b)
         | |- context [N.ltb ?a ?b] => destruct (N.ltb_spec a b)
         | |- context [N.eqb ?a ?b] => destruct (N.eqb_spec a b)
         end;
  cbn [andb orb negb]; try reflexivity; try lia.

Lemma digit_char_plain (d : N) :
  d < 10 ->
  (digit_char d <? 128) = true /\ N.eqb 95 (digit_char d) = false /\
  c_isspace (digit_char d) = false /\ is_digit (digit_char d) = true /\
  (digit_char d =? 45) = false /\ (digit_char d =? 43) = false.
Proof.
  intros H. unfold c_isspace, is_digit, digit_char. repeat split; n_bool.
Qed.

Lemma digit_char_not_space (d : N) : d < 10 -> is_space (digit_char d) = false.
Proof. intros H. unfold is_space, digit_char. n_bool. Qed.

Lemma drop_zeros_length (ds : list N) :
  (List.length (drop_zeros ds) <= List.length ds)%nat.
Proof.
  induction ds as [|d t IH]; simpl; [lia|]. destruct (d =? 0); simpl; lia.
Qed.

Lemma existsb_none (f : N -> bool) (s : str) :
  Forall (fun c => f c = false) s -> existsb f s = false.
Proof. induction 1 as [|c t Hc _ IH]; simpl; [reflexivity|now rewrite Hc]. Qed.

Lemma forallb_all (f : N -> bool) (s : str) :
  Forall (fun c => f c = true) s -> forallb f s = true.
Proof. induction 1 as [|c t Hc _ IH]; simpl; [reflexivity|now rewrite Hc]. Qed.

(** [float] on an unsigned decimal numeral [I.F]. *)
Lemma float_of_str_decimal (U : UnicodeData) (ip fp : list N) :
  is_digits ip -> is_digits fp -> ip <> [] ->
  N.of_nat (List.length (ip ++ fp)) <= MAX_DIGITS ->
  float_of_str (digits_str ip ++ Scoring.dot :: digits_str fp) =
  Ok (nearest_binary64 (digits_value (ip ++ fp)) (- Z.of_nat (List.length fp))).
Proof.
  intros Hi Hf Hne Hlen.
  assert (Hall : forall P : N -> Prop,
             (forall d, d < 10 -> P (digit_char d)) -> P Scoring.dot ->
             Forall P (digits_str ip ++ Scoring.dot :: digits_str fp)).
  { intros P Hd Hdot. apply Forall_app; split; [|constructor; [exact Hdot|]];
      now apply digits_str_forall. }
  unfold float_of_str, transform_decimal_and_space, strip_underscores.
  rewrite forallb_all by (apply Hall; [apply digit_char_plain|reflexivity]).
  rewrite existsb_none by (apply Hall; [apply digit_char_plain|reflexivity]).
  rewrite strip_by_noop by (apply Hall; [apply digit_char_plain|reflexivity]).
  assert (Hparse : strtod_parse (digits_str ip ++ Scoring.dot :: digits_str fp) =
                   Some ({| dec_neg := false; dec_int := ip; dec_frac := fp;
                            dec_exp := 0 |}, [])).
  { unfold strtod_parse.
    assert (Hs : take_sign (digits_str ip ++ Scoring.dot :: digits_str fp) =
                 (false, digits_str ip ++ Scoring.dot :: digits_str fp)).
    { destruct Hi as [|d ds Hd _]; [congruence|]. simpl. 
      destruct (digit_char_plain d Hd) as (_ & _ & _ & _ & -> & ->). reflexivity. }
    rewrite Hs, (take_digits_digits ip _ Hi) by reflexivity.
    change (Scoring.dot =? 46) with true. cbv iota.
    rewrite <- (app_nil_r (digits_str fp)), (take_digits_digits fp [] Hf I).
    replace (MAX_DIGITS <? N.of_nat (List.length (drop_zeros (ip ++ fp)))) with false.
    2:{ symmetry; apply N.ltb_ge. pose proof (drop_zeros_length (ip ++ fp)). lia. }
    replace (MAX_DIGITS <? N.of_nat (List.length fp)) with false.
    2:{ symmetry; apply N.ltb_ge. rewrite length_app in Hlen. lia. }
    destruct (ip ++ fp) as [|d l] eqn:E; [|reflexivity].
    destruct ip; [congruence|discriminate]. }
  revert Hparse.
  destruct (digits_str ip ++ Scoring.dot :: digits_str fp) as [|c b] eqn:E.
  { destruct ip; [congruence|discriminate]. }
  intros ->.
  unfold float_of_decimal, sf_of_decimal, nearest_binary64. cbn [dec_neg dec_int dec_frac dec_exp].
  rewrite Z.sub_0_l. reflexivity.
Qed.
(** [float] raises nothing but [ValueError]. *)
Lemma float_of_str_raises (U : UnicodeData) (s : str) (e : exn) :
  float_of_str s = Raise e -> e = ValueError.
Proof.
  unfold float_of_str.
  destruct (strip_underscores _) as [a|]; [|congruence].
  destruct (strip_by c_isspace a) as [|c b]; [congruence|].
  destruct (strtod_parse (c :: b)) as [[d [|x r]]|]; try congruence.
  destruct (parse_inf_or_nan (c :: b)) as [[x [|y r]]|]; congruence.
Qed.

Lemma split_go_length (sep : N) (s cur : str) :
  List.length (split_go sep cur s) = S (count_occ N.eq_dec s sep).
Proof.
  revert cur; induction s as [|c t IH]; intros cur; simpl; [reflexivity|].
  destruct (N.eqb_spec c sep) as [E|Hne].
  - destruct (N.eq_dec c sep); [|congruence]. simpl. now rewrite IH.
  - destruct (N.eq_dec c sep); [congruence|]. apply IH.
Qed.

Lemma split_length (sep : N) (s : str) :
  List.length (split sep s) = S (count_occ N.eq_dec s sep).
Proof. apply split_go_length. Qed.

End PyFacts.

(** ** Facts about binary64 arithmetic *)

Module FloatFacts.
Import Py.
Local Open Scope Z_scope.

Definition sf_one : spec_float := S754_finite false 4503599627370496 (-52).

Lemma Prim2SF_one : Prim2SF 1 = sf_one.
Proof. reflexivity. Qed.

Lemma Prim2SF_zero : Prim2SF 0 = S754_zero false.
Proof. reflexivity. Qed.

Lemma div_eucl_exact (a b : Z) : Z.div_eucl a b = (a / b, a mod b).
Proof. unfold Z.div, Z.modulo. now destruct (Z.div_eucl a b). Qed.

(** Rounding a mantissa that already sits at its exponent changes
    nothing. *)
Lemma round_canonical (s : bool) (m : positive) (e : Z) :
  fexp prec emax (Z.pos (digits2_pos m) + e) = e -> e <= 971 ->
  binary_round_aux prec emax s (Z.pos m) e loc_Exact = S754_finite s m e.
Proof.
  intros Hc He. unfold binary_round_aux, shr_fexp.
  change (Zdigits2 (Z.pos m)) with (Z.pos (digits2_pos m)).
  rewrite Hc, Z.sub_diag.
  cbn [shr shr_record_of_loc shr_m loc_of_shr_record round_nearest_even].
  change (Zdigits2 (Z.pos m)) with (Z.pos (digits2_pos m)).
  rewrite Hc, Z.sub_diag.
  cbn [shr shr_record_of_loc shr_m].
  change (emax - prec) with 971.
  destruct (Z.leb_spec e 971); [reflexivity|lia].
Qed.

(** The same when the mantissa carries one more, zero, bit. *)
Lemma round_canonical_double (s : bool) (m : positive) (e : Z) :
  fexp prec emax (Z.pos (digits2_pos m) + e) = e -> e <= 971 ->
  -1074 < Z.pos (digits2_pos m) + e - 53 ->
  binary_round_aux prec emax s (Z.pos m~0) (e - 1) loc_Exact =
  S754_finite s m e.
Proof.
  intros Hc He Hn. unfold binary_round_aux, shr_fexp.
  change (Zdigits2 (Z.pos m~0)) with (Z.pos (Pos.succ (digits2_pos m))).
  replace (fexp prec emax (Z.pos (Pos.succ (digits2_pos m)) + (e - 1)) - (e - 1))
    with 1.
  2:{ revert Hc. unfold fexp, SpecFloat.emin, prec, emax. lia. }
  cbn [shr iter_pos shr_1 shr_record_of_loc orb shr_m loc_of_shr_record
       round_nearest_even].
  replace (e - 1 + 1) with e by lia.
  change (Zdigits2 (Z.pos m)) with (Z.pos (digits2_pos m)).
  rewrite Hc, Z.sub_diag.
  cbn [shr shr_record_of_loc shr_m].
  change (emax - prec) with 971.
  destruct (Z.leb_spec e 971); [reflexivity|lia].
Qed.

(** Dividing a binary64 number by one gives it back. *)
Lemma SFdiv_one (x : spec_float) :
  SpecFloat.valid_binary prec emax x = true -> SFdiv prec emax x sf_one = x.
Proof.
  destruct x as [s|s| |s m e]; intros Hv; try (now destruct s); try reflexivity.
  cbn [SpecFloat.valid_binary] in Hv. unfold bounded, canonical_mantissa in Hv.
  apply andb_prop in Hv. destruct Hv as [Hc He].
  apply Z.eqb_eq in Hc. apply Z.leb_le in He.
  change (emax - prec) with 971 in He.
  unfold sf_one, SFdiv, SFdiv_core_binary.
  change (Zdigits2 (Z.pos m)) with (Z.pos (digits2_pos m)).
  change (Zdigits2 4503599627370496) with 53.
  replace (xorb s false) with s by now destruct s.
  destruct (Z_le_gt_dec (Z.pos (digits2_pos m) + e - 53) (-1074)) as [Hsub|Hnorm].
  - (* the lowest binade: the quotient is the mantissa itself *)
    replace (Z.min (fexp prec emax (Z.pos (digits2_pos m) + e - (53 + -52)))
                   (e - -52)) with e
      by (revert Hc; unfold fexp, SpecFloat.emin, prec, emax; lia).
    replace (e - -52 - e) with 52 by lia. cbv iota.
    rewrite Z.shiftl_mul_pow2 by lia. rewrite div_eucl_exact.
    change (2 ^ 52) with 4503599627370496.
    rewrite Z.div_mul, Z.mod_mul by lia.
    change (new_location 4503599627370496 0) with loc_Exact.
    now apply round_canonical.
  - (* a normal number: the quotient is the mantissa doubled *)
    replace (Z.min (fexp prec emax (Z.pos (digits2_pos m) + e - (53 + -52)))
                   (e - -52)) with (e - 1)
      by (revert Hc; unfold fexp, SpecFloat.emin, prec, emax; lia).
    replace (e - -52 - (e - 1)) with 53 by lia. cbv iota.
    rewrite Z.shiftl_mul_pow2 by lia. rewrite div_eucl_exact.
    replace (Z.pos m * 2 ^ 53) with (Z.pos m~0 * 4503599627370496) by lia.
    rewrite Z.div_mul, Z.mod_mul by lia.
    change (new_location 4503599627370496 0) with loc_Exact.
    apply round_canonical_double; trivial. lia.
Qed.

Lemma div_one (x : float) : (x / 1)%float = x.
Proof.
  apply Prim2SF_inj. rewrite div_spec, Prim2SF_one.
  apply SFdiv_one, Prim2SF_valid.
Qed.

(** A number that is not the negative zero is unchanged by adding
    [0.0]. *)
Lemma add_zero_r (x : float) :
  Prim2SF x <> S754_zero true -> (x + 0)%float = x.
Proof.
  intros H. apply Prim2SF_inj. rewrite add_spec, Prim2SF_zero.
  destruct (Prim2SF x) as [[|]|s| |s m e]; try reflexivity. congruence.
Qed.

(** Sign information: zero, finite and infinite values with the sign
    bit clear, or NaN. *)
Definition sf_nonneg (x : spec_float) : Prop :=
  match x with
  | S754_zero s | S754_infinity s | S754_finite s _ _ => s = false
  | S754_nan => True
  end.

Lemma sf_nonneg_not_neg_zero (x : spec_float) :
  sf_nonneg x -> x <> S754_zero true.
Proof. intros H E. subst x. discriminate H. Qed.

Lemma round_aux_nonneg (m e : Z) (l : location) :
  sf_nonneg (binary_round_aux prec emax false m e l).
Proof.
  unfold binary_round_aux.
  destruct (shr_fexp prec emax m e l) as [mrs' e'].
  destruct (shr_fexp prec emax _ e' loc_Exact) as [mrs'' e''].
  destruct (shr_m mrs''); [reflexivity| |exact I].
  destruct (e'' <=? emax - prec); reflexivity.
Qed.

Lemma round_nonneg (m : positive) (e : Z) :
  sf_nonneg (binary_round prec emax false m e).
Proof.
  unfold binary_round. destruct (shl_align _ _ _) as [mz ez].
  apply round_aux_nonneg.
Qed.

Lemma normalize_nonneg (m e : Z) :
  0 <= m -> sf_nonneg (binary_normalize prec emax m e false).
Proof.
  intros H. destruct m as [|p|p]; [reflexivity|apply round_nonneg|lia].
Qed.

Lemma SFadd_nonneg (x y : spec_float) :
  sf_nonneg x -> sf_nonneg y -> sf_nonneg (SFadd prec emax x y).
Proof.
  destruct x as [sx|sx| |sx mx ex], y as [sy|sy| |sy my ey]; cbn [sf_nonneg];
    intros Hx Hy; subst; try exact I; try reflexivity.
  unfold SFadd. apply normalize_nonneg. cbn [cond_Zopp]. lia.
Qed.

Lemma SFmul_nonneg (x y : spec_float) :
  sf_nonneg x -> sf_nonneg y -> sf_nonneg (SFmul prec emax x y).
Proof.
  destruct x as [sx|sx| |sx mx ex], y as [sy|sy| |sy my ey]; cbn [sf_nonneg];
    intros Hx Hy; subst; try exact I; try reflexivity.
  unfold SFmul. apply round_aux_nonneg.
Qed.

Lemma SF2Prim_nonneg (x : spec_float) :
  sf_nonneg x -> sf_nonneg (Prim2SF (SF2Prim x)).
Proof.
  destruct x as [s|s| |s m e]; cbn [sf_nonneg]; intros H; subst;
    try reflexivity.
  unfold SF2Prim. rewrite Z_ldexp_spec, of_uint63_spec.
  pose proof (normalize_nonneg
                (Uint63Axioms.to_Z (Uint63Axioms.of_Z (Z.pos m))) 0
                (proj1 (Uint63.to_Z_bounded _))) as Hn.
  destruct (binary_normalize prec emax _ 0 false) as [s|s| |s m' e'];
    cbn [SFldexp sf_nonneg] in *; trivial.
  subst s. apply round_nonneg.
Qed.

Lemma float_of_nat_nonneg (n : nat) : sf_nonneg (Prim2SF (float_of_nat n)).
Proof. apply SF2Prim_nonneg, normalize_nonneg. lia. Qed.

Lemma add_nonneg (x y : float) :
  sf_nonneg (Prim2SF x) -> sf_nonneg (Prim2SF y) ->
  sf_nonneg (Prim2SF (x + y)%float).
Proof. rewrite add_spec. apply SFadd_nonneg. Qed.

Lemma mul_nonneg (x y : float) :
  sf_nonneg (Prim2SF x) -> sf_nonneg (Prim2SF y) ->
  sf_nonneg (Prim2SF (x * y)%float).
Proof. rewrite mul_spec. apply SFmul_nonneg. Qed.

(** Comparisons with zero. *)
Lemma eqb_leb (x y : float) : (x =? y)%float = true -> (x <=? y)%float = true.
Proof.
  rewrite eqb_spec, leb_spec. unfold SFeqb, SFleb.
  destruct (SFcompare _ _) as [[]|]; congruence.
Qed.

Lemma pos_not_leb_zero (x : float) :
  (0 <? x)%float = true -> (x <=? 0)%float = false.
Proof.
  rewrite ltb_spec, leb_spec, Prim2SF_zero. unfold SFltb, SFleb.
  destruct (Prim2SF x) as [s|[|]| |[|] m e]; cbn; congruence.
Qed.

End FloatFacts.

(** ** Facts about [scoring.py] *)

Module ScoringFacts.
Import Py Scoring Contract PyFacts FloatFacts.

Lemma parse_price_nonempty (U : UnicodeData) (s : str) :
  s <> [] ->
  parse_price (Some s) =
  match float_of_str (cleaned_str s) with
  | Ok x => Ok x
  | Raise _ => Ok 0%float
  end.
Proof.
  intros Hs. destruct s as [|c t]; [congruence|]. unfold parse_price.
  destruct (float_of_str (cleaned_str (c :: t))) as [x|e] eqn:E; [reflexivity|].
  now rewrite (float_of_str_raises _ _ _ E).
Qed.

Lemma map_comma_digits (ds : list N) :
  map (fun c => if c =? comma then dot else c) (digits_str ds) = digits_str ds.
Proof.
  unfold digits_str. rewrite map_map. apply map_ext. intros d.
  unfold digit_char, comma. n_bool.
Qed.

Lemma map_comma_groups (gs : list (list N)) :
  map (fun c => if c =? comma then dot else c)
      (flat_map (fun g => dot :: digits_str g) gs) =
  flat_map (fun seg => dot :: seg) (map digits_str gs).
Proof.
  induction gs as [|g gs IH]; [reflexivity|].
  cbn [flat_map map]. rewrite map_app. cbn [map].
  now rewrite map_comma_digits, IH.
Qed.

Lemma digits_no_dot (ds : list N) : ~ In dot (digits_str ds).
Proof.
  unfold digits_str. rewrite in_map_iff. intros (d & Hd & _).
  unfold digit_char, dot in Hd. lia.
Qed.

(** On a well-formed price the string handed to [float] is the digits
    before the comma, one dot, and the decimals. *)
Lemma cleaned_price_text (g0 : list N) (gs : list (list N)) (frac : list N) :
  is_digits g0 -> Forall is_digits gs -> is_digits frac ->
  cleaned_str (price_text g0 gs frac) =
  digits_str (g0 ++ List.concat gs) ++ dot :: digits_str frac.
Proof.
  intros H0 Hs Hf. unfold cleaned_str, price_text.
  remember (digits_str (g0 ++ List.concat gs) ++ dot :: digits_str frac)
    as rhs eqn:Erhs.
  set (body := digits_str g0 ++ flat_map (fun g => dot :: digits_str g) gs
               ++ comma :: digits_str frac).
  replace (digits_str g0 ++ flat_map (fun g => dot :: digits_str g) gs
           ++ comma :: digits_str frac ++ lit " TL")
    with (body ++ lit " TL")
    by (unfold body; now rewrite <- !app_assoc, <- app_comm_cons).
  assert (Hbody : Forall (fun c => is_space c = false) body).
  { unfold body. rewrite !Forall_app. split; [|split].
    - apply digits_str_forall; [apply digit_char_not_space|exact H0].
    - apply Forall_flat_map. eapply Forall_impl; [|exact Hs].
      intros g Hg. constructor; [reflexivity|].
      apply digits_str_forall; [apply digit_char_not_space|exact Hg].
    - constructor; [reflexivity|].
      apply digits_str_forall; [apply digit_char_not_space|exact Hf]. }
  rewrite replace_suffix_TL.
  2:{ intros Hin. rewrite Forall_forall in Hbody. now specialize (Hbody _ Hin). }
  unfold strip. rewrite strip_by_noop by exact Hbody.
  rewrite replace_char. unfold body.
  rewrite !map_app, map_comma_digits, map_comma_groups. cbn [map].
  change (if comma =? comma then dot else comma) with dot.
  rewrite map_comma_digits.
  replace (dot :: digits_str frac)
    with (flat_map (fun seg => dot :: seg) [digits_str frac])
    by (simpl; now rewrite app_nil_r).
  rewrite <- flat_map_app, split_groups.
  2:{ constructor; [apply digits_no_dot|]. apply Forall_app; split.
      - apply Forall_map, Forall_forall. intros g _. apply digits_no_dot.
      - constructor; [apply digits_no_dot|constructor]. }
  cbn [List.length]. rewrite length_app, Nat.add_1_r.
  change (1 <? S (S (List.length (map digits_str gs))))%nat with true.
  cbv iota.
  change (digits_str g0 :: map digits_str gs ++ [digits_str frac])
    with ((digits_str g0 :: map digits_str gs) ++ [digits_str frac]).
  rewrite removelast_last, last_last, join_nil_concat.
  subst rhs. cbn [List.concat]. unfold digits_str.
  rewrite map_app, concat_map. now rewrite <- !app_assoc.
Qed.

(** C1.  A price "D.DDD,DD TL" parses to the binary64 number nearest to
    the value of its digits with the thousands dots removed and the
    comma read as the decimal point; the four worked examples; and the
    steps of the algorithm: drop " TL", strip, commas to dots, split on
    the dot, glue all segments but the last and join the last with one
    dot, then [float], with [0.0] when [float] fails. *)
Theorem parse_price_turkish_format :
  (forall (U : UnicodeData) (g0 : list N) (gs : list (list N)) (frac : list N),
     is_digits g0 -> Forall is_digits gs -> is_digits frac -> g0 <> [] ->
     N.of_nat (List.length (g0 ++ List.concat gs ++ frac)) <= MAX_DIGITS ->
     parse_price (Some (price_text g0 gs frac)) =
     Ok (nearest_binary64 (digits_value (g0 ++ List.concat gs ++ frac))
                          (- Z.of_nat (List.length frac)))) /\
  (forall U : UnicodeData,
     parse_price (Some (lit "43.990,00 TL")) = Ok 43990%float /\
     parse_price (Some (lit "")) = Ok 0%float /\
     parse_price (Some (lit "abc")) = Ok 0%float /\
     parse_price (Some (lit "100")) = Ok 100%float) /\
  (forall (U : UnicodeData) (s : str),
     s <> [] ->
     parse_price (Some s) =
     (let t := replace [comma] [dot] (strip (replace (lit " TL") [] s)) in
      let parts := split dot t in
      let joined :=
        match parts with
        | [] | [_] => nth 0 parts []
        | _ => List.concat (removelast parts) ++ [dot] ++ last parts []
        end in
      match float_of_str joined with
      | Ok x => Ok x
      | Raise _ => Ok 0%float
      end)).
Proof.
  split; [|split].
  - intros U g0 gs frac H0 Hs Hf Hne Hlen.
    rewrite parse_price_nonempty.
    2:{ unfold price_text. destruct g0; [congruence|discriminate]. }
    rewrite cleaned_price_text by assumption.
    rewrite float_of_str_decimal; trivial.
    + now rewrite <- app_assoc.
    + apply Forall_app; split; [exact H0|]. now apply Forall_concat.
    + destruct g0; [congruence|discriminate].
    + now rewrite <- app_assoc.
  - intros U. repeat split; vm_compute; reflexivity.
  - intros U s Hs. rewrite parse_price_nonempty by exact Hs.
    unfold cleaned_str. cbv zeta.
    destruct (split dot _) as [|p [|q r]]; try reflexivity.
    rewrite join_nil_concat. reflexivity.
Qed.

(** The price of the spec's example, read group by group. *)
Lemma parse_price_turkish_format_witness :
  @parse_price latin_unicode (Some (price_text [4; 3] [[9; 9; 0]] [0; 0])) =
  Ok (nearest_binary64 4399000 (-2)).
Proof.
  apply (proj1 parse_price_turkish_format
               latin_unicode [4; 3] [[9; 9; 0]] [0; 0]).
  - repeat constructor.
  - repeat constructor.
  - repeat constructor.
  - discriminate.
  - vm_compute. discriminate.
Defined.

(** C9.  [parse_price] returns a float on every argument, [None] and
    the empty string included; nothing is raised, and whenever [float]
    fails the result is [0.0]. *)
Theorem parse_price_total (U : UnicodeData) (price_str : option str) :
  parse_price price_str =
  Ok match price_str with
     | None => 0%float
     | Some [] => 0%float
     | Some s =>
       match float_of_str (cleaned_str s) with
       | Ok x => x
       | Raise _ => 0%float
       end
     end.
Proof.
  destruct price_str as [[|c s]|]; try reflexivity.
  rewrite parse_price_nonempty by discriminate.
  now destruct (float_of_str _).
Qed.

(** C10.  A non-empty feature string adds [0.05] times the number of
    its commas plus one, empty tokens included; a lone comma and
    "Wifi," add the same [0.10] as "Wifi, Pool"; only the empty or
    missing string adds nothing. *)
Theorem feature_contribution_counts_commas :
  (forall (h : hotel) (base_score : float),
     score_features h base_score =
     match hotel_features h with
     | None | Some [] => base_score
     | Some s =>
       (base_score + c_0_05 * float_of_nat (count_commas s + 1))%float
     end) /\
  score_features (with_features (Some (lit ","))) 0 = c_0_10 /\
  score_features (with_features (Some (lit "Wifi,"))) 0 = c_0_10 /\
  score_features (with_features (Some (lit "Wifi, Pool"))) 0 = c_0_10 /\
  score_features (with_features (Some [])) 0 = 0%float /\
  score_features (with_features None) 0 = 0%float /\
  @compute_base_score latin_unicode (with_features (Some (lit ","))) = c_0_10 /\
  @compute_base_score latin_unicode (with_features (Some (lit "Wifi,"))) =
  @compute_base_score latin_unicode (with_features (Some (lit "Wifi, Pool"))).
Proof.
  split.
  - intros h b. unfold score_features, get_str.
    destruct (hotel_features h) as [[|c s]|]; try reflexivity.
    rewrite length_map, split_length. unfold count_commas.
    now rewrite Nat.add_1_r.
  - repeat split; vm_compute; reflexivity.
Qed.

Lemma feature_bonus_nonneg (f : option str) :
  sf_nonneg (Prim2SF (feature_bonus f)).
Proof.
  destruct f as [[|c s]|]; try reflexivity.
  apply mul_nonneg; [reflexivity|apply float_of_nat_nonneg].
Qed.

Lemma base_score_sum (U : UnicodeData) (h : hotel) :
  compute_base_score h =
  (cancel_bonus (cancel_policy h) + recommend_bonus (recomended_hotel h)
   + feature_bonus (hotel_features h)
   + accommodation_bonus
       (str_lower (strip (get_str (accommodation_types h)))))%float.
Proof.
  unfold compute_base_score, score_cancel, score_recommended, score_features,
    score_accommodation, cancel_bonus, recommend_bonus, accommodation_bonus,
    accommodation_table.
  generalize (str_lower (strip (get_str (accommodation_types h)))) as a.
  intros a. cbn [find fst snd].
  pose proof (feature_bonus_nonneg (hotel_features h)) as Hf.
  revert Hf. unfold feature_bonus, feature_tokens.
  destruct (contains (lit "Risksiz rezervasyon") (get_str (cancel_policy h)));
    destruct (recomended_hotel h) as [r|];
    (destruct (hotel_features h) as [[|c s]|]; cbn [get_str];
     [| rewrite length_map |]); intros Hf;
    destruct (contains (lit "ultra her şey dahil") a); try reflexivity;
    destruct (contains (lit "her şey dahil") a); try reflexivity;
    destruct (contains (lit "yarım pansiyon") a); try reflexivity;
    destruct (contains (lit "oda kahvaltı") a); try reflexivity;
    destruct (contains (lit "sadece oda") a); try reflexivity.
  all: symmetry; apply add_zero_r, sf_nonneg_not_neg_zero, add_nonneg;
    [reflexivity|exact Hf].
Qed.


(** A record that has nothing but the attributes of the worked example
    and the given price. *)
Definition priced (p : str) : hotel :=
  {| detail_page_url := None; hotel_name := None; price := Some p;
     location := None;
     accommodation_types := Some (lit "Ultra Her Şey Dahil");
     checkin_time := None; checkout_time := None;
     hotel_features := Some (lit "Wifi, Pool");
     cancel_policy := Some (lit "Risksiz rezervasyon dahil");
     recomended_hotel := Some (lit "x") |}.

(** The price the guard of [compute_final_score] looks at. *)
Definition parsed_price {U : UnicodeData} (h : hotel) : float :=
  match parse_price (price h) with
  | Ok x => x
  | Raise _ => 0%float
  end.

Lemma final_score_of_price (U : UnicodeData) (h : hotel) (p : float) :
  parse_price (price h) = Ok p ->
  compute_final_score h =
  if (p <=? 0)%float then Ok (compute_base_score h)
  else Ok (compute_base_score h / p)%float.
Proof.
  intros Hp. unfold compute_final_score. rewrite Hp. cbn [bind].
  unfold truediv. destruct (p <=? 0)%float eqn:Hle.
  - change (1 =? 0)%float with false. cbv iota. now rewrite div_one.
  - destruct (p =? 0)%float eqn:Heq; [|reflexivity].
    apply eqb_leb in Heq. congruence.
Qed.

Lemma parse_price_ok (U : UnicodeData) (price_str : option str) :
  exists x, parse_price price_str = Ok x.
Proof.
  destruct price_str as [[|c s]|]; try (eexists; reflexivity).
  rewrite parse_price_nonempty by discriminate.
  destruct (float_of_str _); eexists; reflexivity.
Qed.

Lemma parse_price_parsed (U : UnicodeData) (h : hotel) :
  parse_price (price h) = Ok (parsed_price h).
Proof.
  unfold parsed_price. now destruct (parse_price_ok U (price h)) as [x ->].
Qed.

Lemma final_score_cases (U : UnicodeData) (h : hotel) :
  compute_final_score h =
  if (parsed_price h <=? 0)%float then Ok (compute_base_score h)
  else Ok (compute_base_score h / parsed_price h)%float.
Proof. apply final_score_of_price, parse_price_parsed. Qed.

Lemma final_score_ok (U : UnicodeData) (h : hotel) :
  exists x, compute_final_score h = Ok x.
Proof.
  rewrite final_score_cases. destruct (_ <=? 0)%float; eexists; reflexivity.
Qed.

(** C2, as amended.  [compute_final_score] never raises, so there is no
    division by zero; it is the base score divided by the parsed price
    when that price is strictly positive, and the base score itself
    when the price parses to a value at most zero or does not parse. *)
Theorem final_score_divides_by_positive_price :
  (forall (U : UnicodeData) (h : hotel),
     exists x, compute_final_score h = Ok x) /\
  (forall (U : UnicodeData) (h : hotel) (p : float),
     parse_price (price h) = Ok p -> (0 <? p)%float = true ->
     compute_final_score h = Ok (compute_base_score h / p)%float) /\
  (forall (U : UnicodeData) (h : hotel) (p : float),
     parse_price (price h) = Ok p -> (p <=? 0)%float = true ->
     compute_final_score h = Ok (compute_base_score h / 1)%float /\
     compute_final_score h = Ok (compute_base_score h)) /\
  (forall (U : UnicodeData) (h : hotel),
     match price h with
     | None | Some [] => True
     | Some s => exists e, float_of_str (cleaned_str s) = Raise e
     end ->
     compute_final_score h = Ok (compute_base_score h)) /\
  (forall U : UnicodeData,
     compute_final_score (priced (lit "0 TL")) =
     Ok (compute_base_score (priced (lit "0 TL")))).
Proof.
  split; [|split; [|split; [|split]]].
  - exact final_score_ok.
  - intros U h p Hp Hpos. rewrite final_score_cases.
    unfold parsed_price. rewrite Hp.
    now rewrite (pos_not_leb_zero p Hpos).
  - intros U h p Hp Hle. rewrite final_score_cases.
    unfold parsed_price. rewrite Hp, Hle, div_one. now split.
  - intros U h Hbad. rewrite final_score_cases. unfold parsed_price.
    destruct (price h) as [[|c s]|]; try reflexivity.
    destruct Hbad as [e He].
    rewrite parse_price_nonempty, He by discriminate. reflexivity.
  - intros U. rewrite final_score_cases. vm_compute. reflexivity.
Qed.

Lemma final_score_divides_by_positive_price_witness :
  @compute_final_score latin_unicode (priced (lit "100")) =
  Ok (@compute_base_score latin_unicode (priced (lit "100")) / 100)%float /\
  @compute_final_score latin_unicode (priced (lit "-5")) =
  Ok (@compute_base_score latin_unicode (priced (lit "-5"))) /\
  @compute_final_score latin_unicode (priced (lit "abc")) =
  Ok (@compute_base_score latin_unicode (priced (lit "abc"))).
Proof.
  destruct final_score_divides_by_positive_price as (_ & Hpos & Hle & Hbad & _).
  split; [|split].
  - apply (Hpos latin_unicode (priced (lit "100")) 100%float);
      vm_compute; reflexivity.
  - apply (Hle latin_unicode (priced (lit "-5")) (-5)%float);
      vm_compute; reflexivity.
  - apply (Hbad latin_unicode (priced (lit "abc"))).
    exists ValueError. vm_compute. reflexivity.
Defined.

(** C2 as stated fails: a price text "NaN TL" parses to NaN, which is
    not strictly positive, yet the score is not the base score over 1
    but NaN; and a price of 1e-320 gives an infinite score. *)
Lemma final_score_not_always_finite :
  @parse_price latin_unicode (Some (lit "NaN TL")) = Ok nan /\
  (0 <? nan)%float = false /\
  @compute_final_score latin_unicode (priced (lit "NaN TL")) = Ok nan /\
  (@compute_base_score latin_unicode (priced (lit "NaN TL")) / 1)%float = c_4_10 /\
  is_finite nan = false /\
  @compute_final_score latin_unicode (priced (lit "1e-320")) = Ok infinity /\
  is_finite infinity = false.
Proof. repeat split; vm_compute; reflexivity. Qed.

End ScoringFacts.

(** ** The order of binary64 numbers *)

Module FloatOrder.
Local Open Scope Z_scope.

(** A number that is not NaN has a place in the lexicographic order of
    triples: its class, then its exponent and its mantissa, both
    negated for a negative number. *)
Definition place (x : spec_float) : Z * Z * Z :=
  match x with
  | S754_infinity true => (-2, 0, 0)
  | S754_finite true m e => (-1, - e, Z.neg m)
  | S754_zero _ => (0, 0, 0)
  | S754_nan => (0, 0, 0)
  | S754_finite false m e => (1, e, Z.pos m)
  | S754_infinity false => (2, 0, 0)
  end.

Definition lex_compare (a b : Z * Z * Z) : comparison :=
  let '(a1, a2, a3) := a in
  let '(b1, b2, b3) := b in
  match a1 ?= b1 with
  | Eq => match a2 ?= b2 with
          | Eq => a3 ?= b3
          | c => c
          end
  | c => c
  end.

Definition lex_lt (a b : Z * Z * Z) : Prop :=
  let '(a1, a2, a3) := a in
  let '(b1, b2, b3) := b in
  a1 < b1 \/ a1 = b1 /\ (a2 < b2 \/ a2 = b2 /\ a3 < b3).

Lemma lex_compare_spec (a b : Z * Z * Z) :
  match lex_compare a b with
  | Lt => lex_lt a b
  | Eq => a = b
  | Gt => lex_lt b a
  end.
Proof.
  destruct a as [[a1 a2] a3], b as [[b1 b2] b3]. unfold lex_compare, lex_lt.
  destruct (Z.compare_spec a1 b1); try lia;
    destruct (Z.compare_spec a2 b2); try lia;
    destruct (Z.compare_spec a3 b3); try lia.
  congruence.
Qed.

Lemma SFcompare_place (x y : spec_float) :
  x <> S754_nan -> y <> S754_nan ->
  SFcompare x y = Some (lex_compare (place x) (place y)).
Proof.
  intros Hx Hy.
  destruct x as [sx|[|]| |[|] mx ex], y as [sy|[|]| |[|] my ey];
    try congruence; try reflexivity.
  cbn. rewrite Z.compare_opp, (Z.compare_antisym ey ex).
  destruct (ey ?= ex); reflexivity.
Qed.

Definition not_nan (x : float) : Prop := Prim2SF x <> S754_nan.

Definition fplace (x : float) : Z * Z * Z := place (Prim2SF x).

Lemma ltb_place (x y : float) :
  not_nan x -> not_nan y ->
  ((x <? y)%float = true <-> lex_lt (fplace x) (fplace y)).
Proof.
  intros Hx Hy. rewrite ltb_spec. unfold SFltb, fplace.
  rewrite (SFcompare_place _ _ Hx Hy).
  pose proof (lex_compare_spec (place (Prim2SF x)) (place (Prim2SF y))) as H.
  destruct (lex_compare _ _); split; intros G; try congruence; try reflexivity.
  - rewrite H in G. destruct (place (Prim2SF y)) as [[a b] c]. cbn in G. lia.
  - destruct (place (Prim2SF x)) as [[a b] c], (place (Prim2SF y)) as [[a' b'] c'].
    cbn in *. lia.
Qed.

Lemma leb_place (x y : float) :
  not_nan x -> not_nan y ->
  ((x <=? y)%float = true <-> ~ lex_lt (fplace y) (fplace x)).
Proof.
  intros Hx Hy. rewrite leb_spec. unfold SFleb, fplace.
  rewrite (SFcompare_place _ _ Hx Hy).
  pose proof (lex_compare_spec (place (Prim2SF x)) (place (Prim2SF y))) as H.
  destruct (place (Prim2SF x)) as [[a b] c], (place (Prim2SF y)) as [[a' b'] c'].
  destruct (lex_compare _ _); cbn in *; split; intros G; try congruence;
    try reflexivity; try lia.
  all: try (inversion H; subst; lia).
  all: try (exfalso; apply G; exact H).
Qed.

(** What a true comparison says about NaN. *)
Lemma ltb_not_nan (x y : float) :
  (x <? y)%float = true -> not_nan x /\ not_nan y.
Proof.
  rewrite ltb_spec. unfold SFltb, not_nan.
  destruct (Prim2SF x), (Prim2SF y); cbn; intros H; split; congruence.
Qed.

Lemma eqb_not_nan (x y : float) :
  (x =? y)%float = true -> not_nan x /\ not_nan y.
Proof.
  rewrite eqb_spec. unfold SFeqb, not_nan.
  destruct (Prim2SF x), (Prim2SF y); cbn; intros H; split; congruence.
Qed.

Lemma eqb_place (x y : float) :
  (x =? y)%float = true -> fplace x = fplace y.
Proof.
  intros H. destruct (eqb_not_nan _ _ H) as [Hx Hy]. revert H.
  rewrite eqb_spec. unfold SFeqb, fplace.
  rewrite (SFcompare_place _ _ Hx Hy).
  pose proof (lex_compare_spec (place (Prim2SF x)) (place (Prim2SF y))) as G.
  destruct (lex_compare _ _); congruence.
Qed.

Lemma lex_lt_irrefl (a : Z * Z * Z) : ~ lex_lt a a.
Proof. destruct a as [[a b] c]. cbn. lia. Qed.

Lemma not_ltb_leb (x y : float) :
  not_nan x -> not_nan y -> (y <? x)%float = false -> (x <=? y)%float = true.
Proof.
  intros Hx Hy H. apply leb_place; trivial. intros G.
  apply (ltb_place y x Hy Hx) in G. congruence.
Qed.

Lemma ltb_leb (x y : float) : (x <? y)%float = true -> (x <=? y)%float = true.
Proof.
  intros H. destruct (ltb_not_nan _ _ H) as [Hx Hy].
  apply leb_place; trivial. apply (ltb_place x y Hx Hy) in H.
  destruct (fplace x) as [[a b] c], (fplace y) as [[a' b'] c']. cbn in *. lia.
Qed.

Lemma leb_trans (x y z : float) :
  not_nan x -> not_nan y -> not_nan z ->
  (x <=? y)%float = true -> (y <=? z)%float = true -> (x <=? z)%float = true.
Proof.
  intros Hx Hy Hz Hxy Hyz.
  apply leb_place in Hxy; trivial. apply leb_place in Hyz; trivial.
  apply leb_place; trivial.
  destruct (fplace x) as [[a b] c], (fplace y) as [[a' b'] c'],
    (fplace z) as [[a'' b''] c'']. cbn in *. lia.
Qed.

(** Two numbers of which one is below the other are not both equal to
    a third. *)
Lemma ltb_eqb_apart (x y k : float) :
  (y <? x)%float = true -> (x =? k)%float = true -> (y =? k)%float = false.
Proof.
  intros Hlt Hx. destruct (y =? k)%float eqn:Hy; [|reflexivity].
  destruct (ltb_not_nan _ _ Hlt) as [Hny Hnx].
  apply (ltb_place y x Hny Hnx) in Hlt.
  apply eqb_place in Hx, Hy. rewrite Hx, Hy in Hlt.
  now apply lex_lt_irrefl in Hlt.
Qed.

Lemma is_nan_not_nan (x : float) : is_nan x = false -> not_nan x.
Proof.
  unfold is_nan, not_nan. rewrite eqb_spec. unfold SFeqb.
  intros H E. rewrite E in H. discriminate H.
Qed.

End FloatOrder.

(** ** The ranking of [close_spider] *)

Module PipelinesFacts.
Import Py Scoring Pipelines Contract ScoringFacts FloatOrder.

(** *** The insertion sort meets the laws of [sorted] *)

Section SortFacts.
Variable A : Type.
Variable key : A -> float.

Definition no_nan_keys (l : list A) : Prop :=
  Forall (fun x => not_nan (key x)) l.

Lemma total_no_nan (l : list A) : total_keys key l -> no_nan_keys l.
Proof.
  unfold total_keys, no_nan_keys. apply Forall_impl.
  intros x Hx. now apply is_nan_not_nan.
Qed.

Lemma insert_perm (x : A) (l : list A) : Permutation (insert key x l) (x :: l).
Proof.
  induction l as [|y t IH]; cbn [insert]; [reflexivity|].
  destruct (key y <? key x)%float; [|reflexivity].
  rewrite IH. apply perm_swap.
Qed.

Lemma sort_asc_perm (l : list A) : Permutation (sort_asc key l) l.
Proof.
  induction l as [|x t IH]; cbn [sort_asc]; [reflexivity|].
  rewrite insert_perm. now constructor.
Qed.

Lemma insertion_sorted_perm (reverse : bool) (l : list A) :
  Permutation (insertion_sorted key reverse l) l.
Proof.
  unfold insertion_sorted. destruct reverse; [|apply sort_asc_perm].
  rewrite <- Permutation_rev, sort_asc_perm. symmetry. apply Permutation_rev.
Qed.

Lemma insert_sorted (x : A) (l : list A) :
  not_nan (key x) -> no_nan_keys l ->
  StronglySorted (ascending key) l ->
  StronglySorted (ascending key) (insert key x l).
Proof.
  intros Hx Hl Hs. induction Hs as [|y t Hs IH Hy]; cbn [insert].
  - repeat constructor.
  - inversion_clear Hl as [|? ? Hny Hnt].
    destruct (key y <? key x)%float eqn:Hlt.
    + constructor; [now apply IH|].
      eapply Permutation_Forall; [symmetry; apply insert_perm|].
      constructor; [now apply ltb_leb|exact Hy].
    + assert (Hxy : ascending key x y) by now apply not_ltb_leb.
      constructor; [now constructor|]. constructor; [exact Hxy|].
      rewrite Forall_forall in Hy, Hnt |- *. intros z Hz.
      apply (leb_trans (key x) (key y) (key z));
        [exact Hx|exact Hny|exact (Hnt z Hz)|exact Hxy|exact (Hy z Hz)].
Qed.

Lemma sort_asc_sorted (l : list A) :
  no_nan_keys l -> StronglySorted (ascending key) (sort_asc key l).
Proof.
  induction 1 as [|x t Hx Ht IH]; cbn [sort_asc]; [constructor|].
  apply insert_sorted; trivial.
  eapply Permutation_Forall; [symmetry; apply sort_asc_perm|exact Ht].
Qed.

Lemma sorted_snoc (R : A -> A -> Prop) (l : list A) (a : A) :
  StronglySorted R l -> Forall (fun x => R x a) l ->
  StronglySorted R (l ++ [a]).
Proof.
  induction 1 as [|x t Hs IH Hx]; intros Ha; cbn [app].
  - repeat constructor.
  - inversion_clear Ha as [|? ? Hxa Hta]. constructor; [now apply IH|].
    apply Forall_app. split; [exact Hx|now constructor].
Qed.

Lemma sorted_rev (R : A -> A -> Prop) (l : list A) :
  StronglySorted R l -> StronglySorted (fun a b => R b a) (rev l).
Proof.
  induction 1 as [|x t Hs IH Hx]; cbn [rev]; [constructor|].
  apply sorted_snoc; [exact IH|]. now apply Forall_rev.
Qed.

Lemma sorted_reverse_descending (l : list A) :
  no_nan_keys l ->
  StronglySorted (descending key) (insertion_sorted key true l).
Proof.
  intros Hl. unfold insertion_sorted.
  apply (sorted_rev (ascending key)), sort_asc_sorted.
  now apply Forall_rev.
Qed.

Lemma insertion_sorted_orders (reverse : bool) (l : list A) :
  total_keys key l ->
  StronglySorted (if reverse then descending key else ascending key)
                 (insertion_sorted key reverse l).
Proof.
  intros Hl. apply total_no_nan in Hl. destruct reverse.
  - now apply sorted_reverse_descending.
  - now apply sort_asc_sorted.
Qed.

Lemma sorted_firstn (R : A -> A -> Prop) (n : nat) (l : list A) :
  StronglySorted R l -> StronglySorted R (firstn n l).
Proof.
  intros Hs; revert n; induction Hs as [|x t Hs IH Hx]; intros [|n];
    cbn [firstn]; try constructor; [apply IH|].
  rewrite Forall_forall in Hx |- *. intros y Hy. apply Hx.
  revert Hy. rewrite <- (firstn_skipn n t) at 2. rewrite in_app_iff. tauto.
Qed.

Lemma insert_tied (k : float) (x : A) (l : list A) :
  tied key k (insert key x l) = tied key k (x :: l).
Proof.
  induction l as [|y t IH]; cbn [insert]; [reflexivity|].
  destruct (key y <? key x)%float eqn:Hlt; [|reflexivity].
  unfold tied in *. cbn [filter] in *. rewrite IH.
  destruct (key x =? k)%float eqn:Hx; [|reflexivity].
  now rewrite (ltb_eqb_apart (key x) (key y) k Hlt Hx).
Qed.

Lemma sort_asc_tied (k : float) (l : list A) :
  tied key k (sort_asc key l) = tied key k l.
Proof.
  induction l as [|x t IH]; cbn [sort_asc]; [reflexivity|].
  rewrite insert_tied. unfold tied in *. cbn [filter]. now rewrite IH.
Qed.

Lemma insertion_sorted_stable (reverse : bool) (k : float) (l : list A) :
  tied key k (insertion_sorted key reverse l) = tied key k l.
Proof.
  unfold insertion_sorted. destruct reverse; [|apply sort_asc_tied].
  unfold tied. rewrite filter_rev.
  change (filter _ (sort_asc key (rev l)))
    with (tied key k (sort_asc key (rev l))).
  rewrite sort_asc_tied. unfold tied. now rewrite filter_rev, rev_involutive.
Qed.

(** A list that is one ascending run is left as it is. *)
Lemma sort_asc_run (l : list A) :
  one_run key l = true -> sort_asc key l = l.
Proof.
  induction l as [|a t IH]; [reflexivity|].
  destruct t as [|b t]; [reflexivity|].
  intros H. cbn [one_run] in H. apply andb_prop in H. destruct H as [Hab Ht].
  change (sort_asc key (a :: b :: t))
    with (insert key a (sort_asc key (b :: t))).
  rewrite (IH Ht). cbn [insert].
  apply negb_true_iff in Hab. now rewrite Hab.
Qed.

Lemma insertion_sorted_run (reverse : bool) (l : list A) :
  one_run key (if reverse then rev l else l) = true ->
  insertion_sorted key reverse l = l.
Proof.
  unfold insertion_sorted. destruct reverse; intros H.
  - rewrite (sort_asc_run _ H). apply rev_involutive.
  - now apply sort_asc_run.
Qed.

End SortFacts.

Arguments no_nan_keys {A} key l.

(** The insertion sort as a [sorted]. *)
Definition insertion_sort : ListSort :=
  {| sorted := fun A key reverse l => insertion_sorted key reverse l;
     sorted_permutes := insertion_sorted_perm;
     sorted_keeps_run := insertion_sorted_run;
     sorted_orders := insertion_sorted_orders;
     sorted_is_stable :=
       fun A key reverse l _ k => insertion_sorted_stable A key reverse k l |}.

(** *** The output path *)

Lemma from_slash_app (a b : str) :
  ~ In slash a -> from_slash (a ++ slash :: b) = slash :: b.
Proof.
  induction a as [|c a IH]; intros Hn; cbn [app from_slash].
  - now rewrite N.eqb_refl.
  - destruct (N.eqb_spec c slash) as [E|_];
      [exfalso; apply Hn; now left|].
    apply IH. intros Hi. apply Hn. now right.
Qed.

(** The directory made is "output" when the destination holds no
    slash. *)
Lemma dirname_output_path (destination : str) :
  ~ In slash destination ->
  dirname (output_path destination) = lit "output".
Proof.
  intros Hn. unfold dirname, output_path. rewrite !rev_app_distr.
  change (rev (lit "output/")) with (slash :: rev (lit "output")).
  rewrite from_slash_app.
  - vm_compute. reflexivity.
  - rewrite in_app_iff, <- !in_rev. intros [H|H]; [|now apply Hn].
    vm_compute in H.
    repeat (destruct H as [H|H]; [discriminate H|]). exact H.
Qed.

(** *** [close_spider] *)

(** The score [close_spider] stores in a record. *)
Definition score_of {U : UnicodeData} (h : hotel) : float :=
  match compute_final_score h with
  | Ok x => x
  | Raise _ => 0%float
  end.

Definition scored_of {U : UnicodeData} (h : hotel) : scored :=
  {| item := h; final_score := score_of h |}.

(** What [close_spider] does with the records [out] it has ranked:
    it writes them to the output path, which may raise, and the file
    then holds them. *)
Definition write_top (env : output_env) (destination : str)
    (out : list scored) : result (str * list scored) :=
  bind (write_json env (output_path destination) out) (fun _ =>
  Ok (output_path destination, out)).

(** A disk on which every call succeeds, and one on which none
    does. *)
Definition disk_ok : output_env :=
  {| makedirs := fun _ => Ok tt;
     open_w := fun _ => Ok tt;
     json_dump := fun _ _ => Ok tt |}.

Definition disk_read_only : output_env :=
  {| makedirs := fun _ => Raise OSError;
     open_w := fun _ => Raise OSError;
     json_dump := fun _ _ => Raise OSError |}.

Lemma write_top_ok (env : output_env) (destination : str)
    (out : list scored) :
  write_json env (output_path destination) out = Ok tt ->
  write_top env destination out = Ok (output_path destination, out).
Proof. unfold write_top. now intros ->. Qed.

Lemma write_top_raises (env : output_env) (destination : str)
    (out : list scored) (e : exn) :
  write_top env destination out = Raise e ->
  makedirs env (dirname (output_path destination)) = Raise e \/
  open_w env (output_path destination) = Raise e \/
  json_dump env (output_path destination) out = Raise e.
Proof.
  unfold write_top, write_json.
  destruct (makedirs env _) as [u|e1]; [|intros H; injection H as ->; now left].
  cbn [bind].
  destruct (open_w env _) as [u'|e2];
    [|intros H; injection H as ->; right; now left].
  cbn [bind].
  destruct (json_dump env _ out) as [u''|e3]; [discriminate|].
  intros H. injection H as ->. right. now right.
Qed.

Lemma score_all_ok (U : UnicodeData) (hs : list hotel) :
  score_all hs = Ok (map scored_of hs).
Proof.
  induction hs as [|h t IH]; cbn [score_all map]; [reflexivity|].
  rewrite IH.
  destruct (final_score_ok U h) as [x Hx].
  change (scored_of h) with {| item := h; final_score := score_of h |}.
  unfold score_of. rewrite Hx. reflexivity.
Qed.

Lemma close_spider_ok (U : UnicodeData) (S : ListSort) (env : output_env)
    (destination : str) (hs : list hotel) :
  close_spider env destination {| hotels := hs |} =
  write_top env destination
    (firstn 10 (sorted final_score true (map scored_of hs))).
Proof. unfold close_spider. cbn [hotels]. now rewrite score_all_ok. Qed.

Lemma total_scores (U : UnicodeData) (hs : list hotel) :
  Forall (fun h => is_nan (score_of h) = false) hs ->
  total_keys final_score (map scored_of hs).
Proof. intros H. unfold total_keys. now rewrite Forall_map. Qed.

(** C3, as amended.  Whatever the disk does, [close_spider] hands to
    the write at most ten records, all of them when fewer than ten
    were collected and ten otherwise, and they are the head of a
    rearrangement of the scored records.  When no score is NaN that
    rearrangement, and so what is written, is in descending order of
    [final_score], and records of equal score keep their collection
    order. *)
Theorem ranking_top_ten (U : UnicodeData) (S : ListSort) (hs : list hotel) :
  exists out rest : list scored,
    (forall (env : output_env) (destination : str),
        close_spider env destination {| hotels := hs |} =
        write_top env destination out) /\
    (List.length out <= 10)%nat /\
    ((List.length hs < 10)%nat -> List.length out = List.length hs) /\
    ((10 <= List.length hs)%nat -> List.length out = 10%nat) /\
    Permutation (out ++ rest) (map scored_of hs) /\
    (Forall (fun h => is_nan (score_of h) = false) hs ->
     StronglySorted (descending final_score) (out ++ rest) /\
     StronglySorted (descending final_score) out /\
     forall k : float,
       tied final_score k (out ++ rest) =
       tied final_score k (map scored_of hs)).
Proof.
  set (all := sorted final_score true (map scored_of hs)).
  exists (firstn 10 all), (skipn 10 all).
  rewrite firstn_skipn.
  assert (Hlen : List.length all = List.length hs).
  { unfold all. rewrite (Permutation_length (sorted_permutes _ _ _)).
    apply length_map. }
  split; [intros env destination; apply close_spider_ok|].
  split; [rewrite length_firstn; lia|].
  split; [intros Hlt; rewrite length_firstn, Hlen; lia|].
  split; [intros Hge; rewrite length_firstn, Hlen; lia|].
  split; [apply sorted_permutes|].
  intros Hnan. apply total_scores in Hnan.
  assert (Hall : StronglySorted (descending final_score) all)
    by exact (sorted_orders final_score true _ Hnan).
  split; [exact Hall|].
  split; [exact (@sorted_firstn scored final_score _ 10%nat all Hall)|].
  intros k. now apply sorted_is_stable.
Qed.

(** Three records that score 1.0, 2.0 and 2.0. *)
Definition hotel_with (p : str) (recommended : bool) : hotel :=
  {| detail_page_url := None; hotel_name := None; price := Some p;
     location := None; accommodation_types := None;
     checkin_time := None; checkout_time := None;
     hotel_features := None;
     cancel_policy := Some (lit "Risksiz rezervasyon");
     recomended_hotel := if recommended then Some (lit "x") else None |}.

Lemma ranking_top_ten_witness :
  exists out : list scored,
    @close_spider latin_unicode insertion_sort disk_ok (lit "Kemer")
      {| hotels := [hotel_with (lit "1 TL") false;
                    hotel_with (lit "1 TL") true;
                    hotel_with (lit "1,0 TL") true] |} =
    Ok (lit "output/Kemer_scored.json", out) /\
    map final_score out = [2%float; 2%float; 1%float] /\
    map item out = [hotel_with (lit "1 TL") true;
                    hotel_with (lit "1,0 TL") true;
                    hotel_with (lit "1 TL") false] /\
    StronglySorted (descending final_score) out.
Proof.
  destruct (ranking_top_ten latin_unicode insertion_sort
              [hotel_with (lit "1 TL") false;
               hotel_with (lit "1 TL") true;
               hotel_with (lit "1,0 TL") true])
    as (out & rest & Hout & _ & _ & _ & _ & Hsorted).
  exists out. specialize (Hout disk_ok (lit "Kemer")).
  assert (Hs : StronglySorted (descending final_score) out).
  { apply Hsorted. repeat constructor. }
  split; [rewrite Hout; apply write_top_ok; reflexivity|].
  rewrite close_spider_ok in Hout. unfold write_top in Hout.
  cbn [write_json disk_ok makedirs open_w json_dump bind] in Hout.
  injection Hout as Hout. subst out.
  repeat split; try exact Hs; vm_compute; reflexivity.
Defined.

(** C3 as stated fails.  With scores 1.0, NaN and 2.0 the reversed
    list is one run for [<], which is false whenever NaN is compared:
    [sorted] moves nothing, and the records are written with the one
    scoring 1.0 ahead of the one scoring 2.0. *)
Lemma ranking_not_sorted_with_nan :
  exists a b c : scored,
    (forall (S : ListSort) (env : output_env) (destination : str),
        @close_spider latin_unicode S env destination
          {| hotels := [hotel_with (lit "1 TL") false;
                        hotel_with (lit "NaN TL") false;
                        hotel_with (lit "1 TL") true] |} =
        write_top env destination [a; b; c]) /\
    final_score a = 1%float /\ final_score b = nan /\
    final_score c = 2%float /\
    (final_score a <? final_score c)%float = true /\
    ~ StronglySorted (descending final_score) [a; b; c].
Proof.
  exists (@scored_of latin_unicode (hotel_with (lit "1 TL") false)),
         (@scored_of latin_unicode (hotel_with (lit "NaN TL") false)),
         (@scored_of latin_unicode (hotel_with (lit "1 TL") true)).
  split.
  - intros S env destination. rewrite close_spider_ok. cbn [map].
    rewrite sorted_keeps_run by (vm_compute; reflexivity).
    reflexivity.
  - repeat split; try (vm_compute; reflexivity).
    intros Hs. inversion_clear Hs as [|? ? _ Hall].
    inversion_clear Hall as [|? ? Hb _]. unfold descending in Hb.
    vm_compute in Hb. discriminate Hb.
Qed.

End PipelinesFacts.

(** ** Facts about [scraper/spiders/jolly_spider.py] *)

Module SpiderFacts.
Import Py Scoring Spider.

(** A record is skipped, and the loop goes on, when the details come
    back as [None]. *)
Lemma parse_details_skip (site : str -> result detail_page)
    (url : str) (rest : list str) :
  parse_hotel_details site url = Ok None ->
  parse_details site (url :: rest) = parse_details site rest.
Proof. intros H. cbn [parse_details]. now rewrite H. Qed.

(** An exception of [parse_hotel_details] leaves the loop: nothing more
    is yielded and the remaining URLs are not visited. *)
Lemma parse_details_abort (site : str -> result detail_page)
    (url : str) (rest : list str) (e : exn) :
  parse_hotel_details site url = Raise e ->
  parse_details site (url :: rest) = ([], Raise e).
Proof. intros H. cbn [parse_details]. now rewrite H. Qed.

Lemma general_info_absent (site : str -> result detail_page)
    (url : str) (page : detail_page) (price : str) (badge : option str) :
  site (absolute_url url) = Ok page ->
  wait_price page = Ok price ->
  cancel_policy_badge page = Ok badge ->
  (forall e, detail_recommend page = Raise e -> e = NoSuchElementException) ->
  general_info_tab page = Raise NoSuchElementException ->
  parse_hotel_details site url = Ok None.
Proof.
  intros Hs Hp Hb Hr Hg. unfold parse_hotel_details. cbv zeta.
  rewrite Hs. cbn [bind]. rewrite Hp. cbn [bind]. rewrite Hb. cbn [bind].
  destruct (detail_recommend page) as [r|e] eqn:E.
  - cbn [bind]. now rewrite Hg.
  - rewrite (Hr e eq_refl). cbn [bind]. now rewrite Hg.
Qed.

Lemma price_wait_timeout (site : str -> result detail_page)
    (url : str) (page : detail_page) (e : exn) :
  site (absolute_url url) = Ok page ->
  wait_price page = Raise e ->
  parse_hotel_details site url = Raise e.
Proof.
  intros Hs Hp. unfold parse_hotel_details. cbv zeta.
  rewrite Hs. cbn [bind]. now rewrite Hp.
Qed.

(** A detail page on which every lookup answers. *)
Definition good_page : detail_page :=
  {| wait_price := Ok (lit "43.990,00 TL");
     cancel_policy_badge := Ok (Some (lit "<b>Risksiz rezervasyon</b> dahil"));
     detail_recommend := Raise NoSuchElementException;
     general_info_tab := Ok tt;
     sel_hotel_name := Some (lit " Otel ");
     sel_location := None;
     sel_accommodation := [lit " Ultra "; lit "  "; lit "Her Şey Dahil"];
     sel_checkin := None;
     sel_checkout := None;
     sel_features := [lit "Wifi "; lit " "; lit "Pool"] |}.

(** The same page without its "Genel Bilgiler" tab, and without its
    price. *)
Definition page_without_tab : detail_page :=
  {| wait_price := wait_price good_page;
     cancel_policy_badge := cancel_policy_badge good_page;
     detail_recommend := detail_recommend good_page;
     general_info_tab := Raise NoSuchElementException;
     sel_hotel_name := sel_hotel_name good_page;
     sel_location := sel_location good_page;
     sel_accommodation := sel_accommodation good_page;
     sel_checkin := sel_checkin good_page;
     sel_checkout := sel_checkout good_page;
     sel_features := sel_features good_page |}.

Definition page_without_price : detail_page :=
  {| wait_price := Raise TimeoutException;
     cancel_policy_badge := cancel_policy_badge good_page;
     detail_recommend := detail_recommend good_page;
     general_info_tab := general_info_tab good_page;
     sel_hotel_name := sel_hotel_name good_page;
     sel_location := sel_location good_page;
     sel_accommodation := sel_accommodation good_page;
     sel_checkin := sel_checkin good_page;
     sel_checkout := sel_checkout good_page;
     sel_features := sel_features good_page |}.

Definition example_site (url : str) : result detail_page :=
  if str_eqb url (lit "https://www.jollytur.com/no-tab") then Ok page_without_tab
  else if str_eqb url (lit "https://www.jollytur.com/no-price") then Ok page_without_price
  else Ok good_page.

(** C5.  A missing "Genel Bilgiler" tab abandons the current URL and
    the loop goes on with the rest.  A price element that does not
    appear in time raises; the exception is caught nowhere, so it ends
    the loop: no record is yielded for the remaining URLs. *)
Theorem required_lookup_failure :
  (forall (site : str -> result detail_page) (url : str) (rest : list str)
          (page : detail_page) (price : str) (badge : option str),
      site (absolute_url url) = Ok page ->
      wait_price page = Ok price ->
      cancel_policy_badge page = Ok badge ->
      (forall e, detail_recommend page = Raise e -> e = NoSuchElementException) ->
      general_info_tab page = Raise NoSuchElementException ->
      parse_hotel_details site url = Ok None /\
      parse_details site (url :: rest) = parse_details site rest) /\
  (forall (site : str -> result detail_page) (url : str) (rest : list str)
          (page : detail_page) (e : exn),
      site (absolute_url url) = Ok page ->
      wait_price page = Raise e ->
      parse_hotel_details site url = Raise e /\
      parse_details site (url :: rest) = ([], Raise e)) /\
  (exists h : hotel,
      parse_details example_site [lit "/hotel"] = ([h], Ok tt) /\
      parse_details example_site [lit "/no-tab"; lit "/hotel"] = ([h], Ok tt) /\
      parse_details example_site [lit "/no-price"; lit "/hotel"] =
      ([], Raise TimeoutException)).
Proof.
  split; [|split].
  - intros site url rest page price badge Hs Hp Hb Hr Hg.
    assert (H : parse_hotel_details site url = Ok None)
      by (eapply general_info_absent; eassumption).
    split; [exact H|now apply parse_details_skip].
  - intros site url rest page e Hs Hp.
    assert (H : parse_hotel_details site url = Raise e)
      by (eapply price_wait_timeout; eassumption).
    split; [exact H|now apply parse_details_abort].
  - eexists. repeat split; vm_compute; reflexivity.
Qed.

End SpiderFacts.

(** ** Facts about [jolly_selenium.py] *)

Module SeleniumFacts.
Import Py Selenium.
Import Scoring(latin_unicode).

Lemma str_eqb_eq (a b : str) : str_eqb a b = true <-> a = b.
Proof.
  unfold str_eqb. destruct (list_eq_dec N.eq_dec a b); split; congruence.
Qed.

Lemma str_eqb_refl (a : str) : str_eqb a a = true.
Proof. now apply str_eqb_eq. Qed.

(** *** The month-paging loop *)

(** The body breaks exactly when both headers are read and equal the
    targets as strings. *)
Lemma paging_body_break (view : calendar_view) (tm ty : str) :
  paging_body view tm ty = Break <->
  month_header view = Ok tm /\ year_header view = Ok ty.
Proof.
  unfold paging_body.
  destruct (month_header view) as [m|e]; [|split; [discriminate|intros [H _]; discriminate H]].
  destruct (year_header view) as [y|e]; [|split; [discriminate|intros [_ H]; discriminate H]].
  destruct (str_eqb m tm) eqn:Em, (str_eqb y ty) eqn:Ey; cbn [andb].
  - apply str_eqb_eq in Em, Ey. subst. tauto.
  - split; [destruct (next_arrow view); discriminate|].
    intros [_ H]. injection H as ->.
    assert (str_eqb ty ty = true) by now apply str_eqb_eq. congruence.
  - split; [destruct (next_arrow view); discriminate|].
    intros [H _]. injection H as ->.
    assert (str_eqb tm tm = true) by now apply str_eqb_eq. congruence.
  - split; [destruct (next_arrow view); discriminate|].
    intros [H _]. injection H as ->.
    assert (str_eqb tm tm = true) by now apply str_eqb_eq. congruence.
Qed.

(** The body goes round again exactly when the headers are read, are
    not both the targets, and the "next" arrow answers. *)
Lemma paging_body_continue (view : calendar_view) (tm ty : str) :
  paging_body view tm ty = Continue <->
  exists m y, month_header view = Ok m /\ year_header view = Ok y /\
              (m <> tm \/ y <> ty) /\ next_arrow view = Ok tt.
Proof.
  unfold paging_body. split.
  - destruct (month_header view) as [m|e]; [|discriminate].
    destruct (year_header view) as [y|e]; [|discriminate].
    destruct (str_eqb m tm && str_eqb y ty) eqn:E; [discriminate|].
    destruct (next_arrow view) as [[]|e]; [|discriminate]. intros _.
    exists m, y. repeat split.
    apply andb_false_iff in E. destruct E as [E|E]; [left|right];
      intros ->; rewrite str_eqb_refl in E; discriminate E.
  - intros (m & y & -> & -> & Hne & ->).
    destruct (str_eqb m tm && str_eqb y ty) eqn:E; [|reflexivity].
    apply andb_prop in E. destruct E as [Em Ey].
    apply str_eqb_eq in Em, Ey. tauto.
Qed.

Lemma paging_loop_from (calendar : nat -> calendar_view) (tm ty : str)
    (fuel n k : nat) :
  paging_loop calendar tm ty fuel n = Some (Ok k) <->
  (n <= k < n + fuel)%nat /\
  paging_body (calendar k) tm ty = Break /\
  (forall i, (n <= i < k)%nat -> paging_body (calendar i) tm ty = Continue).
Proof.
  revert n; induction fuel as [|fuel IH]; intros n; cbn [paging_loop].
  - split; [discriminate|intros [H _]; lia].
  - destruct (paging_body (calendar n) tm ty) eqn:E.
    + split.
      * intros H. injection H as <-. repeat split; [lia|lia|exact E|].
        intros i Hi. lia.
      * intros (Hk & Hb & Hc). f_equal. f_equal.
        destruct (Nat.eq_dec n k) as [->|Hne]; [reflexivity|].
        specialize (Hc n ltac:(lia)). congruence.
    + rewrite IH. split.
      * intros (Hk & Hb & Hc). repeat split; [lia|lia|exact Hb|].
        intros i Hi. destruct (Nat.eq_dec i n) as [->|Hne]; [exact E|].
        apply Hc. lia.
      * intros (Hk & Hb & Hc). repeat split; [|lia|exact Hb|].
        -- destruct (Nat.eq_dec n k) as [->|Hne]; [congruence|lia].
        -- intros i Hi. apply Hc. lia.
    + split; [discriminate|].
      intros (Hk & Hb & Hc).
      destruct (Nat.eq_dec n k) as [->|Hne]; [congruence|].
      specialize (Hc n ltac:(lia)). congruence.
Qed.

Lemma paging_loop_forever (calendar : nat -> calendar_view) (tm ty : str) :
  (forall i, paging_body (calendar i) tm ty = Continue) ->
  forall fuel n, paging_loop calendar tm ty fuel n = None.
Proof.
  intros H fuel; induction fuel as [|fuel IH]; intros n; cbn [paging_loop];
    [reflexivity|]. now rewrite H.
Qed.

(** C6.  Started on the calendar as first displayed, the loop leaves
    through its [break] after [k] clicks exactly when the view after
    [k] clicks shows the target month and year (string equality on
    both) and every earlier view was paged past; nothing bounds the
    number of passes, so on a calendar that always shows its headers,
    never shows the target and always lets itself be advanced, the
    loop is still running after any number of passes. *)
Theorem month_paging_has_no_bound :
  (forall (calendar : nat -> calendar_view) (tm ty : str) (fuel k : nat),
      paging_loop calendar tm ty fuel 0 = Some (Ok k) <->
      (k < fuel)%nat /\
      (month_header (calendar k) = Ok tm /\ year_header (calendar k) = Ok ty) /\
      (forall i, (i < k)%nat ->
         exists m y, month_header (calendar i) = Ok m /\
                     year_header (calendar i) = Ok y /\
                     (m <> tm \/ y <> ty) /\
                     next_arrow (calendar i) = Ok tt)) /\
  (forall (calendar : nat -> calendar_view) (tm ty : str),
      (forall i, exists m y, month_header (calendar i) = Ok m /\
                             year_header (calendar i) = Ok y /\
                             (m <> tm \/ y <> ty) /\
                             next_arrow (calendar i) = Ok tt) ->
      forall fuel, paging_loop calendar tm ty fuel 0 = None).
Proof.
  split.
  - intros calendar tm ty fuel k. rewrite paging_loop_from, paging_body_break.
    split.
    + intros (Hk & Hb & Hc). split; [lia|]. split; [exact Hb|].
      intros i Hi. apply paging_body_continue, Hc. lia.
    + intros (Hk & Hb & Hc). split; [lia|]. split; [exact Hb|].
      intros i Hi. apply paging_body_continue, Hc. lia.
  - intros calendar tm ty H fuel. apply paging_loop_forever.
    intros i. apply paging_body_continue, H.
Qed.

(** A calendar that starts in January 2025 and shows the next month
    after each click, twelve months a year. *)
Definition month_names : list str :=
  map lit ["Ocak"; "Şubat"; "Mart"; "Nisan"; "Mayıs"; "Haziran"; "Temmuz";
           "Ağustos"; "Eylül"; "Ekim"; "Kasım"; "Aralık"]%string.

Definition year_2025_plus (n : nat) : str :=
  match n with
  | O => lit "2025"
  | 1%nat => lit "2026"
  | _ => lit "later"
  end.

Definition example_calendar (clicks : nat) : calendar_view :=
  {| month_header := Ok (nth (clicks mod 12) month_names []);
     year_header := Ok (year_2025_plus (clicks / 12));
     next_arrow := Ok tt |}.

Lemma month_paging_has_no_bound_witness :
  paging_loop example_calendar (lit "Ağustos") (lit "2025") 8 0 = Some (Ok 7%nat) /\
  forall fuel,
    paging_loop example_calendar (lit "August") (lit "2025") fuel 0 = None.
Proof.
  split.
  - apply (proj1 month_paging_has_no_bound).
    split; [lia|]. split; [split; reflexivity|].
    intros i Hi. eexists _, _. repeat split.
    do 7 (destruct i as [|i]; [left; vm_compute; discriminate|]). lia.
  - apply (proj2 month_paging_has_no_bound). intros i.
    eexists _, _. repeat split. left. cbn [example_calendar].
    pose proof (Nat.mod_upper_bound i 12 ltac:(lia)) as Hb.
    revert Hb. generalize (i mod 12)%nat as r. intros r Hb.
    do 12 (destruct r as [|r]; [vm_compute; discriminate|]). lia.
Defined.

(** *** The loader *)

(** The test the loader applies to a status text. *)
Definition complete {U : UnicodeData} (text : str) : bool :=
  contains (lit "tamamını görüntülediniz") (str_lower (strip text)).











Lemma scroll_while_never_visible (page : listing_page) (clicks : nat) :
  forall (r : nat) (y : Z),
    (forall i, (i <= r)%nat ->
       in_viewport page clicks (y + scroll_step * Z.of_nat i) = Ok false) ->
    (forall i, (i < r)%nat ->
       scroll_by page clicks (y + scroll_step * Z.of_nat i) = Ok tt) ->
    scroll_while page clicks r y = Ok (y + scroll_step * Z.of_nat r)%Z.
Proof.
  induction r as [|r IH]; intros y H Hs; cbn [scroll_while].
  - pose proof (H 0%nat (le_n _)) as H0.
    rewrite Z.mul_0_r, Z.add_0_r in H0. rewrite H0. f_equal. cbn. lia.
  - pose proof (H 0%nat ltac:(lia)) as H0.
    rewrite Z.mul_0_r, Z.add_0_r in H0. rewrite H0.
    pose proof (Hs 0%nat ltac:(lia)) as Hs0.
    rewrite Z.mul_0_r, Z.add_0_r in Hs0. rewrite Hs0.
    rewrite IH.
    + f_equal. lia.
    + intros i Hi. specialize (H (S i) ltac:(lia)).
      rewrite <- H. f_equal. lia.
    + intros i Hi. specialize (Hs (S i) ltac:(lia)).
      rewrite <- Hs. f_equal. lia.
Qed.

(** However it ends, [scroll_while] has scrolled a whole number of
    steps, at most as many as it was allowed. *)
Lemma scroll_while_bound (page : listing_page) (clicks : nat) :
  forall (r : nat) (y y' : Z),
    scroll_while page clicks r y = Ok y' ->
    exists n, (n <= r)%nat /\ y' = (y + scroll_step * Z.of_nat n)%Z.
Proof.
  induction r as [|r IH]; intros y y' H; cbn [scroll_while] in H.
  - exists 0%nat. split; [lia|].
    destruct (in_viewport page clicks y) as [[|]|e]; try discriminate;
      injection H as <-; cbn; lia.
  - destruct (in_viewport page clicks y) as [[|]|e]; try discriminate.
    + injection H as <-. exists 0%nat. split; [lia|cbn; lia].
    + destruct (scroll_by page clicks y) as [u|e]; [|discriminate].
      apply IH in H. destruct H as (n & Hn & ->).
      exists (S n). split; [lia|]. lia.
Qed.

(** C8.  From any state of the loader, a pass in which the status
    element is not found, or is found but is still out of view after
    the fifty scrolls of 550 pixels have been made, or in which the
    "load more" button cannot be found or clicked, ends the loop
    normally: no exception leaves it, and the clicks made so far are
    kept.  A search for the element never scrolls more than fifty
    steps of 550 pixels. *)
Theorem loader_halts_gracefully :
  (forall (U : UnicodeData) (page : listing_page) (fuel clicks : nat)
          (y : Z) (e : exn),
      find_status page clicks = Raise e ->
      loader_loop page (S fuel) clicks y =
      Some (Ok {| why := StatusNotVisible; clicks_made := clicks;
                  scrolled := y |})) /\
  (forall (U : UnicodeData) (page : listing_page) (fuel clicks : nat) (y : Z),
      find_status page clicks = Ok tt ->
      (forall i, (i <= max_scrolls)%nat ->
         in_viewport page clicks (y + scroll_step * Z.of_nat i) = Ok false) ->
      (forall i, (i < max_scrolls)%nat ->
         scroll_by page clicks (y + scroll_step * Z.of_nat i) = Ok tt) ->
      loader_loop page (S fuel) clicks y =
      Some (Ok {| why := StatusNotVisible; clicks_made := clicks;
                  scrolled := (y + 550 * 50)%Z |})) /\
  (forall (U : UnicodeData) (page : listing_page) (fuel clicks : nat)
          (y y' : Z) (text : str) (e : exn),
      scroll_until_element_visible page clicks y = Ok (true, y') ->
      status_text page clicks = Ok text ->
      complete text = false ->
      click_next page clicks = Raise e ->
      loader_loop page (S fuel) clicks y =
      Some (Ok {| why := ClickFailed; clicks_made := clicks;
                  scrolled := y' |})) /\
  (forall (page : listing_page) (clicks : nat) (y y' : Z) (v : bool),
      scroll_until_element_visible page clicks y = Ok (v, y') ->
      exists n, (n <= 50)%nat /\ y' = (y + 550 * Z.of_nat n)%Z).
Proof.
  split; [|split; [|split]].
  - intros U page fuel clicks y e Hf. cbn [loader_loop].
    unfold scroll_until_element_visible. now rewrite Hf.
  - intros U page fuel clicks y Hf Hv Hs. cbn [loader_loop].
    unfold scroll_until_element_visible. rewrite Hf.
    rewrite (scroll_while_never_visible page clicks max_scrolls y Hv Hs).
    cbn [bind]. rewrite (Hv max_scrolls (le_n _)). reflexivity.
  - intros U page fuel clicks y y' text e Hs Ht Hc Hn. cbn [loader_loop].
    rewrite Hs, Ht. unfold complete in Hc. now rewrite Hc, Hn.
  - intros page clicks y y' v. unfold scroll_until_element_visible.
    destruct (find_status page clicks) as [u|e].
    + destruct (scroll_while page clicks max_scrolls y) as [y1|e] eqn:E;
        [|discriminate].
      cbn [bind]. destruct (in_viewport page clicks y1) as [b|e];
        [|discriminate].
      cbn [bind]. intros H. injection H as _ <-.
      exact (scroll_while_bound page clicks max_scrolls y y1 E).
    + intros H. injection H as _ <-. exists 0%nat. split; [lia|cbn; lia].
Qed.

(** A page whose status line stays below the fold, and a page whose
    "load more" button is gone. *)
Definition page_below_fold : listing_page :=
  {| find_status := fun _ => Ok tt;
     in_viewport := fun _ _ => Ok false;
     scroll_by := fun _ _ => Ok tt;
     status_text := fun _ => Ok (lit "12 / 40");
     click_next := fun _ => Ok tt |}.

Definition page_without_button : listing_page :=
  {| find_status := fun _ => Ok tt;
     in_viewport := fun _ y => Ok (1100 <=? y)%Z;
     scroll_by := fun _ _ => Ok tt;
     status_text := fun _ => Ok (lit "12 / 40");
     click_next := fun _ => Raise NoSuchElementException |}.

Lemma loader_halts_gracefully_witness :
  @scroll_and_click_until_all_displayed latin_unicode page_below_fold 1 =
  Some (Ok {| why := StatusNotVisible; clicks_made := 0%nat;
              scrolled := 27500%Z |}) /\
  @scroll_and_click_until_all_displayed latin_unicode page_without_button 1 =
  Some (Ok {| why := ClickFailed; clicks_made := 0%nat; scrolled := 1100%Z |}).
Proof.
  destruct loader_halts_gracefully as (_ & Hview & Hclick & _).
  split.
  - apply (Hview latin_unicode page_below_fold 0%nat 0%nat 0%Z); reflexivity.
  - apply (Hclick latin_unicode page_without_button 0%nat 0%nat 0%Z 1100%Z
                  (lit "12 / 40") NoSuchElementException);
      vm_compute; reflexivity.
Defined.

End SeleniumFacts.

(** ** Numbers that are neither negative nor NaN *)

Module FloatRange.
Import Py FloatFacts.
Local Open Scope Z_scope.

(** Zero, finite and infinite values with the sign bit clear. *)
Definition sf_plain (x : spec_float) : Prop :=
  match x with
  | S754_zero s | S754_infinity s | S754_finite s _ _ => s = false
  | S754_nan => False
  end.

Definition plain (x : float) : Prop := sf_plain (Prim2SF x).

Lemma shr_1_nonneg (mrs : shr_record) :
  0 <= shr_m mrs -> 0 <= shr_m (shr_1 mrs).
Proof.
  destruct mrs as [m r s]. cbn [shr_m].
  destruct m as [|[p|p|]|p]; cbn; lia.
Qed.

Lemma iter_shr_1_nonneg (p : positive) (mrs : shr_record) :
  0 <= shr_m mrs -> 0 <= shr_m (iter_pos shr_1 p mrs).
Proof.
  revert mrs; induction p as [p IH|p IH|]; intros mrs H; cbn [iter_pos].
  - apply IH, IH, shr_1_nonneg, H.
  - apply IH, IH, H.
  - apply shr_1_nonneg, H.
Qed.

Lemma shr_fexp_nonneg (m e : Z) (l : location) :
  0 <= m -> 0 <= shr_m (fst (shr_fexp prec emax m e l)).
Proof.
  intros H. unfold shr_fexp, shr.
  assert (H0 : 0 <= shr_m (shr_record_of_loc m l))
    by (destruct l as [|[]]; exact H).
  destruct (fexp prec emax (Zdigits2 m + e) - e) as [|p|p]; cbn [fst];
    trivial. now apply iter_shr_1_nonneg.
Qed.

Lemma round_aux_plain (m e : Z) (l : location) :
  0 <= m -> sf_plain (binary_round_aux prec emax false m e l).
Proof.
  intros H. unfold binary_round_aux.
  pose proof (shr_fexp_nonneg m e l H) as H1.
  destruct (shr_fexp prec emax m e l) as [mrs' e']. cbn [fst] in H1.
  assert (H2 : 0 <= round_nearest_even (shr_m mrs') (loc_of_shr_record mrs')).
  { unfold round_nearest_even.
    destruct (loc_of_shr_record mrs') as [|[]]; try lia.
    destruct (Z.even (shr_m mrs')); lia. }
  pose proof (shr_fexp_nonneg _ e' loc_Exact H2) as H3.
  destruct (shr_fexp prec emax _ e' loc_Exact) as [mrs'' e'']. cbn [fst] in H3.
  destruct (shr_m mrs''); [reflexivity| |lia].
  destruct (e'' <=? emax - prec); reflexivity.
Qed.

Lemma round_plain (m : positive) (e : Z) :
  sf_plain (binary_round prec emax false m e).
Proof.
  unfold binary_round. destruct (shl_align _ _ _) as [mz ez].
  apply round_aux_plain. lia.
Qed.

Lemma normalize_plain (m e : Z) :
  0 <= m -> sf_plain (binary_normalize prec emax m e false).
Proof.
  intros H. destruct m as [|p|p]; [reflexivity|apply round_plain|lia].
Qed.

Lemma SFadd_plain (x y : spec_float) :
  sf_plain x -> sf_plain y -> sf_plain (SFadd prec emax x y).
Proof.
  destruct x as [sx|sx| |sx mx ex], y as [sy|sy| |sy my ey]; cbn [sf_plain];
    intros Hx Hy; subst; try contradiction; try reflexivity.
  unfold SFadd. apply normalize_plain. cbn [cond_Zopp]. lia.
Qed.

(** A product with a finite, non-zero factor. *)
Lemma SFmul_plain (mx : positive) (ex : Z) (y : spec_float) :
  sf_plain y -> sf_plain (SFmul prec emax (S754_finite false mx ex) y).
Proof.
  destruct y as [sy|sy| |sy my ey]; cbn [sf_plain]; intros Hy; subst;
    try contradiction; try reflexivity.
  unfold SFmul. apply round_aux_plain. cbn. lia.
Qed.

(** A quotient by a finite, strictly positive divisor. *)
Lemma SFdiv_plain (x : spec_float) (my : positive) (ey : Z) :
  sf_plain x -> sf_plain (SFdiv prec emax x (S754_finite false my ey)).
Proof.
  destruct x as [sx|sx| |sx mx ex]; cbn [sf_plain]; intros Hx; subst;
    try contradiction; try reflexivity.
  unfold SFdiv, SFdiv_core_binary.
  set (e' := Z.min _ _). set (m' := match ex - ey - e' with
                                   | 0 => Z.pos mx
                                   | Z.pos _ => Z.shiftl (Z.pos mx) (ex - ey - e')
                                   | Z.neg _ => 0
                                   end).
  assert (Hm : 0 <= m').
  { unfold m'. destruct (ex - ey - e'); try lia. apply Z.shiftl_nonneg. lia. }
  rewrite div_eucl_exact. cbn [xorb].
  apply round_aux_plain. apply Z.div_pos; lia.
Qed.

Lemma SF2Prim_plain (x : spec_float) :
  sf_plain x -> plain (SF2Prim x).
Proof.
  unfold plain.
  destruct x as [s|s| |s m e]; cbn [sf_plain]; intros H; subst;
    try contradiction; try reflexivity.
  unfold SF2Prim. rewrite Z_ldexp_spec, of_uint63_spec.
  pose proof (normalize_plain
                (Uint63Axioms.to_Z (Uint63Axioms.of_Z (Z.pos m))) 0
                (proj1 (Uint63.to_Z_bounded _))) as Hn.
  destruct (binary_normalize prec emax _ 0 false) as [s|s| |s m' e'];
    cbn [SFldexp sf_plain] in *; trivial.
  subst s. apply round_plain.
Qed.

Lemma float_of_nat_plain (n : nat) : plain (float_of_nat n).
Proof. apply SF2Prim_plain, normalize_plain. lia. Qed.

Lemma add_plain (x y : float) : plain x -> plain y -> plain (x + y)%float.
Proof. unfold plain. rewrite add_spec. apply SFadd_plain. Qed.

Lemma plain_not_nan (x : float) : plain x -> is_nan x = false.
Proof.
  unfold plain, is_nan. rewrite eqb_spec. unfold SFeqb.
  destruct (Prim2SF x) as [s|s| |s m e]; cbn [sf_plain]; intros H;
    try contradiction; subst; cbn; try reflexivity.
  rewrite Z.compare_refl, Pos.compare_cont_refl. reflexivity.
Qed.

Lemma plain_sign (x : float) : plain x -> sf_nonneg (Prim2SF x).
Proof. unfold plain. destruct (Prim2SF x); cbn; tauto. Qed.

(** A finite number, as the primitive tests see it. *)
Lemma is_finite_cases (x : float) :
  is_finite x = true ->
  (exists s, Prim2SF x = S754_zero s) \/
  (exists s m e, Prim2SF x = S754_finite s m e).
Proof.
  unfold is_finite, is_nan, is_infinity.
  rewrite !eqb_spec, abs_spec.
  change (Prim2SF infinity) with (S754_infinity false).
  destruct (Prim2SF x) as [s|[|]| |s m e]; cbn; intros H; try discriminate.
  - left. now exists s.
  - right. now exists s, m, e.
Qed.

End FloatRange.


(** ** More about [scoring.py] *)

Module ScoringMore.
Import Py Scoring Contract PyFacts FloatFacts FloatRange ScoringFacts.

(** *** Dots and commas *)

Section Separators.
(** A renaming of characters that leaves " TL" and white space alone. *)
Variable h : N -> N.
Hypothesis h_space : forall c, is_space (h c) = is_space c.
Hypothesis h_suffix :
  forall a c, In a (lit " TL") -> (a =? h c) = (a =? c).

Lemma starts_with_renamed (old s : str) :
  (forall a, In a old -> In a (lit " TL")) ->
  starts_with old (map h s) = starts_with old s.
Proof.
  revert s; induction old as [|a old IH]; intros s Hold; [reflexivity|].
  destruct s as [|c t]; [reflexivity|]. cbn [map starts_with].
  rewrite h_suffix by (apply Hold; now left).
  rewrite IH; [reflexivity|]. intros b Hb. apply Hold. now right.
Qed.

Lemma replace_suffix_renamed (skip : nat) (s : str) :
  replace_from (lit " TL") [] skip (map h s) =
  map h (replace_from (lit " TL") [] skip s).
Proof.
  revert skip; induction s as [|c t IH]; intros skip; [reflexivity|].
  cbn [map replace_from]. destruct skip as [|k]; [|apply IH].
  change (h c :: map h t) with (map h (c :: t)).
  rewrite starts_with_renamed by trivial.
  destruct (starts_with (lit " TL") (c :: t)); cbn [app map]; now rewrite IH.
Qed.

Lemma lstrip_renamed (s : str) :
  lstrip_by is_space (map h s) = map h (lstrip_by is_space s).
Proof.
  induction s as [|c t IH]; [reflexivity|]. cbn [map lstrip_by].
  rewrite h_space. now destruct (is_space c).
Qed.

Lemma strip_renamed (s : str) : strip (map h s) = map h (strip s).
Proof.
  unfold strip, strip_by.
  now rewrite lstrip_renamed, <- map_rev, lstrip_renamed, map_rev.
Qed.

(** When the renaming is undone by the comma-to-dot step, the string
    handed to [float] is the same. *)
Hypothesis h_absorbed :
  forall c, (if h c =? comma then dot else h c) = (if c =? comma then dot else c).

Lemma cleaned_str_renamed (s : str) : cleaned_str (map h s) = cleaned_str s.
Proof.
  unfold cleaned_str, replace.
  rewrite replace_suffix_renamed, strip_renamed.
  fold (replace [comma] [dot] (map h (strip (replace_from (lit " TL") [] 0 s)))).
  fold (replace [comma] [dot] (strip (replace_from (lit " TL") [] 0 s))).
  rewrite !replace_char, map_map.
  now rewrite (map_ext _ _ h_absorbed).
Qed.

Lemma parse_price_renamed (U : UnicodeData) (s : str) :
  parse_price (Some (map h s)) = parse_price (Some s).
Proof.
  destruct s as [|c t]; [reflexivity|].
  rewrite !parse_price_nonempty by discriminate.
  now rewrite cleaned_str_renamed.
Qed.

End Separators.

Definition comma_to_dot (c : N) : N := if c =? comma then dot else c.
Definition dot_to_comma (c : N) : N := if c =? dot then comma else c.

(** X1.  Dots and commas are read alike: replacing every comma by a
    dot, or every dot by a comma, does not change the price.  So
    "1,234.56" and "1.234,56" both parse to 1234.56. *)
Theorem parse_price_separators_alike :
  (forall (U : UnicodeData) (s : str),
      parse_price (Some (replace [comma] [dot] s)) = parse_price (Some s) /\
      parse_price (Some (replace [dot] [comma] s)) = parse_price (Some s)) /\
  (forall U : UnicodeData,
      parse_price (Some (lit "1,234.56")) = parse_price (Some (lit "1.234,56")) /\
      parse_price (Some (lit "1.234,56")) = float_of_str (lit "1234.56")).
Proof.
  split.
  - intros U s. rewrite !replace_char. split.
    + apply (parse_price_renamed comma_to_dot); intros c; unfold comma_to_dot.
      * destruct (N.eqb_spec c comma) as [->|_]; reflexivity.
      * intros a Ha. destruct (N.eqb_spec a comma) as [->|_]; [|reflexivity].
        cbn in Ha. destruct Ha as [<-|[<-|[<-|[]]]]; reflexivity.
      * destruct (c =? comma) eqn:E; cbv iota; [reflexivity|now rewrite E].
    + apply (parse_price_renamed dot_to_comma); intros c; unfold dot_to_comma.
      * destruct (N.eqb_spec c dot) as [->|_]; reflexivity.
      * intros a Ha. destruct (N.eqb_spec a dot) as [->|_]; [|reflexivity].
        cbn in Ha. destruct Ha as [<-|[<-|[<-|[]]]]; reflexivity.
      * destruct (c =? dot) eqn:E; cbv iota.
        -- apply N.eqb_eq in E. now subst c.
        -- reflexivity.
  - intros U. split; vm_compute; reflexivity.
Qed.

(** *** Prices without a comma *)

Lemma parse_price_of_price_text (U : UnicodeData)
    (g0 : list N) (gs : list (list N)) (frac : list N) :
  is_digits g0 -> Forall is_digits gs -> is_digits frac -> g0 <> [] ->
  N.of_nat (List.length (g0 ++ List.concat gs ++ frac)) <= MAX_DIGITS ->
  parse_price (Some (price_text g0 gs frac)) =
  Ok (nearest_binary64 (digits_value (g0 ++ List.concat gs ++ frac))
                       (- Z.of_nat (List.length frac))).
Proof.
  intros H0 Hs Hf Hne Hlen.
  rewrite parse_price_nonempty.
  2:{ unfold price_text. destruct g0; [congruence|discriminate]. }
  rewrite cleaned_price_text by assumption.
  rewrite float_of_str_decimal; trivial.
  - now rewrite <- app_assoc.
  - apply Forall_app; split; [exact H0|]. now apply Forall_concat.
  - destruct g0; [congruence|discriminate].
  - now rewrite <- app_assoc.
Qed.

(** [float] on a run of digits. *)
Lemma float_of_str_integer (U : UnicodeData) (ip : list N) :
  is_digits ip -> ip <> [] -> N.of_nat (List.length ip) <= MAX_DIGITS ->
  float_of_str (digits_str ip) = Ok (nearest_binary64 (digits_value ip) 0).
Proof.
  intros Hi Hne Hlen.
  assert (Hall : forall P : N -> Prop,
             (forall d, d < 10 -> P (digit_char d)) ->
             Forall P (digits_str ip))
    by (intros P Hd; now apply digits_str_forall).
  unfold float_of_str, transform_decimal_and_space, strip_underscores.
  rewrite forallb_all by (apply Hall; apply digit_char_plain).
  rewrite existsb_none by (apply Hall; apply digit_char_plain).
  rewrite strip_by_noop by (apply Hall; apply digit_char_plain).
  assert (Hparse : strtod_parse (digits_str ip) =
                   Some ({| dec_neg := false; dec_int := ip; dec_frac := [];
                            dec_exp := 0 |}, [])).
  { unfold strtod_parse.
    assert (Hs : take_sign (digits_str ip) = (false, digits_str ip)).
    { destruct Hi as [|d ds Hd _]; [congruence|]. simpl.
      destruct (digit_char_plain d Hd) as (_ & _ & _ & _ & -> & ->).
      reflexivity. }
    rewrite Hs. rewrite <- (app_nil_r (digits_str ip)) at 1.
    rewrite (take_digits_digits ip [] Hi I). rewrite app_nil_r.
    replace (MAX_DIGITS <? N.of_nat (List.length (drop_zeros ip))) with false.
    2:{ symmetry; apply N.ltb_ge. pose proof (drop_zeros_length ip). lia. }
    destruct ip as [|d l]; [congruence|]. reflexivity. }
  revert Hparse. destruct (digits_str ip) as [|c b] eqn:E.
  { destruct ip; [congruence|discriminate]. }
  intros ->. unfold float_of_decimal, sf_of_decimal, nearest_binary64.
  cbn [dec_neg dec_int dec_frac dec_exp]. now rewrite app_nil_r.
Qed.

Lemma cleaned_digits_only (g : list N) :
  is_digits g -> cleaned_str (digits_str g ++ lit " TL") = digits_str g.
Proof.
  intros Hg. unfold cleaned_str.
  assert (Hsp : Forall (fun c => is_space c = false) (digits_str g))
    by (apply digits_str_forall; [apply digit_char_not_space|exact Hg]).
  rewrite replace_suffix_TL.
  2:{ intros Hin. rewrite Forall_forall in Hsp. now specialize (Hsp _ Hin). }
  unfold strip. rewrite strip_by_noop by exact Hsp.
  rewrite replace_char, map_comma_digits.
  pose proof (split_groups dot (digits_str g) []) as Hsplit.
  cbn [flat_map] in Hsplit. rewrite app_nil_r in Hsplit.
  rewrite Hsplit by (constructor; [apply digits_no_dot|constructor]).
  reflexivity.
Qed.

Lemma groups_renamed (gs : list (list N)) :
  flat_map (fun seg => dot :: seg) (map digits_str gs) =
  flat_map (fun g => dot :: digits_str g) gs.
Proof. induction gs as [|g gs IH]; cbn; [reflexivity|now rewrite IH]. Qed.

(** The text of a price with thousands dots and no comma. *)
Definition dotted_text (g0 : list N) (gs : list (list N)) : str :=
  digits_str g0 ++ flat_map (fun g => dot :: digits_str g) gs ++ lit " TL".

Lemma dotted_text_renamed (g0 : list N) (gs : list (list N)) (glast : list N) :
  dotted_text g0 (gs ++ [glast]) = map comma_to_dot (price_text g0 gs glast).
Proof.
  unfold dotted_text, price_text, comma_to_dot.
  rewrite !map_app, map_comma_digits, map_comma_groups, groups_renamed.
  cbn [map]. change (if comma =? comma then dot else comma) with dot.
  rewrite map_app, map_comma_digits, flat_map_app. cbn [flat_map].
  rewrite app_nil_r, <- !app_assoc. reflexivity.
Qed.

(** X2.  Without a comma the last dot is the decimal point: the group
    after it is read as decimals, so "43.990 TL" is 43.99 and not
    43990; a price of digits only is the integer they write. *)
Theorem parse_price_without_comma :
  (forall (U : UnicodeData) (g0 : list N) (gs : list (list N)) (glast : list N),
      is_digits g0 -> Forall is_digits gs -> is_digits glast -> g0 <> [] ->
      N.of_nat (List.length (g0 ++ List.concat gs ++ glast)) <= MAX_DIGITS ->
      parse_price (Some (dotted_text g0 (gs ++ [glast]))) =
      Ok (nearest_binary64 (digits_value (g0 ++ List.concat gs ++ glast))
                           (- Z.of_nat (List.length glast)))) /\
  (forall (U : UnicodeData) (g0 : list N),
      is_digits g0 -> g0 <> [] -> N.of_nat (List.length g0) <= MAX_DIGITS ->
      parse_price (Some (dotted_text g0 [])) =
      Ok (nearest_binary64 (digits_value g0) 0)) /\
  (forall U : UnicodeData,
      parse_price (Some (lit "43.990 TL")) = float_of_str (lit "43.99")).
Proof.
  split; [|split].
  - intros U g0 gs glast H0 Hs Hl Hne Hlen.
    rewrite dotted_text_renamed.
    rewrite (parse_price_renamed comma_to_dot).
    + now apply parse_price_of_price_text.
    + intros c. unfold comma_to_dot.
      destruct (N.eqb_spec c comma) as [->|_]; reflexivity.
    + intros a c Ha. unfold comma_to_dot.
      destruct (N.eqb_spec c comma) as [->|_]; [|reflexivity].
      cbn in Ha. destruct Ha as [<-|[<-|[<-|[]]]]; reflexivity.
    + intros c. unfold comma_to_dot.
      destruct (c =? comma) eqn:E; cbv iota; [reflexivity|now rewrite E].
  - intros U g0 H0 Hne Hlen. unfold dotted_text. cbn [flat_map app].
    rewrite parse_price_nonempty by (destruct g0; [congruence|discriminate]).
    rewrite cleaned_digits_only by exact H0.
    now rewrite float_of_str_integer.
  - intros U. vm_compute. reflexivity.
Qed.

Lemma parse_price_without_comma_witness :
  @parse_price latin_unicode (Some (dotted_text [4; 3] ([] ++ [[9; 9; 0]]))) =
  Ok (nearest_binary64 43990 (-3)) /\
  @parse_price latin_unicode (Some (dotted_text [1; 0; 0] [])) =
  Ok (nearest_binary64 100 0).
Proof.
  destruct parse_price_without_comma as (Hdot & Hint & _). split.
  - apply (Hdot latin_unicode [4; 3] [] [9; 9; 0]);
      try (repeat constructor); try discriminate.
  - apply (Hint latin_unicode [1; 0; 0]);
      try (repeat constructor); try discriminate.
Defined.

(** *** The range of the scores *)

Lemma plain_closed (x : float) : sf_plain (Prim2SF x) -> plain x.
Proof. exact (fun H => H). Qed.

Lemma feature_bonus_plain (f : option str) : plain (feature_bonus f).
Proof.
  destruct f as [[|c s]|]; try reflexivity.
  unfold feature_bonus, plain. rewrite mul_spec.
  change (Prim2SF c_0_05) with (S754_finite false 7205759403792794 (-57)).
  apply SFmul_plain, float_of_nat_plain.
Qed.

Lemma accommodation_bonus_plain (a : str) : plain (accommodation_bonus a).
Proof.
  unfold accommodation_bonus, accommodation_table. cbn [find fst snd].
  repeat match goal with |- context [contains ?p a] =>
    destruct (contains p a); [reflexivity|] end.
  reflexivity.
Qed.

Lemma base_score_plain (U : UnicodeData) (h : hotel) :
  plain (compute_base_score h).
Proof.
  rewrite base_score_sum. repeat apply add_plain.
  - unfold cancel_bonus. now destruct (contains _ _).
  - unfold recommend_bonus. now destruct (recomended_hotel h).
  - apply feature_bonus_plain.
  - apply accommodation_bonus_plain.
Qed.

Lemma plain_zero_leb (x : float) : plain x -> (0 <=? x)%float = true.
Proof.
  unfold plain. rewrite leb_spec, Prim2SF_zero. unfold SFleb.
  destruct (Prim2SF x) as [s|s| |s m e]; cbn [sf_plain]; intros H;
    try contradiction; subst; reflexivity.
Qed.

(** X3.  The base score is never NaN and never negative, whatever the
    record holds. *)
Theorem base_score_never_negative (U : UnicodeData) (h : hotel) :
  is_nan (compute_base_score h) = false /\
  (0 <=? compute_base_score h)%float = true.
Proof.
  split; [apply plain_not_nan|apply plain_zero_leb]; apply base_score_plain.
Qed.

Lemma final_score_plain (U : UnicodeData) (h : hotel) (p x : float) :
  parse_price (price h) = Ok p -> is_finite p = true ->
  compute_final_score h = Ok x -> plain x.
Proof.
  intros Hp Hfin. rewrite (final_score_of_price U h p Hp).
  destruct (p <=? 0)%float eqn:Hle; intros Hx; injection Hx as <-;
    [apply base_score_plain|].
  unfold plain. rewrite div_spec.
  destruct (is_finite_cases p Hfin) as [[s E]|(s & m & e & E)];
    rewrite leb_spec, Prim2SF_zero, E in Hle.
  - destruct s; discriminate Hle.
  - destruct s; [discriminate Hle|]. rewrite E.
    apply SFdiv_plain, base_score_plain.
Qed.

(** X4.  When the price parses to a finite number the final score is
    neither NaN nor negative. *)
Theorem final_score_of_finite_price (U : UnicodeData) (h : hotel) (p : float) :
  parse_price (price h) = Ok p -> is_finite p = true ->
  exists x, compute_final_score h = Ok x /\
            is_nan x = false /\ (0 <=? x)%float = true.
Proof.
  intros Hp Hfin. destruct (final_score_ok U h) as [x Hx].
  exists x. split; [exact Hx|].
  pose proof (final_score_plain U h p x Hp Hfin Hx) as H.
  split; [now apply plain_not_nan|now apply plain_zero_leb].
Qed.

Lemma final_score_of_finite_price_witness :
  exists x, @compute_final_score latin_unicode (priced (lit "43.990,00 TL")) = Ok x /\
            is_nan x = false /\ (0 <=? x)%float = true.
Proof.
  apply (final_score_of_finite_price latin_unicode
           (priced (lit "43.990,00 TL")) 43990%float); vm_compute; reflexivity.
Defined.

End ScoringMore.

(** ** More on [scraper/pipelines.py] *)

Module PipelinesMore.
Import Py Scoring Pipelines Contract ScoringFacts FloatOrder FloatRange.
Import PipelinesFacts ScoringMore.

(** The price of the record parses to a finite number. *)
Definition finite_price {U : UnicodeData} (h : hotel) : bool :=
  match parse_price (price h) with
  | Ok p => is_finite p
  | Raise _ => false
  end.

Lemma finite_price_score (U : UnicodeData) (h : hotel) :
  finite_price h = true -> plain (score_of h).
Proof.
  unfold finite_price, score_of. intros Hf.
  destruct (parse_price (price h)) as [p|e] eqn:Hp; [|discriminate Hf].
  destruct (final_score_ok U h) as [x Hx]. rewrite Hx.
  exact (final_score_plain U h p x Hp Hf Hx).
Qed.

Lemma score_all_items (U : UnicodeData) (hs : list hotel) :
  Forall (fun r => compute_final_score (item r) = Ok (final_score r))
         (map scored_of hs).
Proof.
  rewrite Forall_map, Forall_forall. intros h _.
  cbn [scored_of item final_score]. unfold score_of.
  destruct (final_score_ok U h) as [x Hx]. now rewrite Hx.
Qed.

Lemma process_items (items : list hotel) (self : ScorePipeline) :
  hotels (fold_left process_item items self) = hotels self ++ items.
Proof.
  revert self; induction items as [|it items IH]; intros self;
    cbn [fold_left]; [now rewrite app_nil_r|].
  rewrite IH. cbn [process_item hotels]. now rewrite <- app_assoc.
Qed.

Lemma in_firstn (A : Type) (n : nat) (l : list A) (x : A) :
  In x (firstn n l) -> In x l.
Proof.
  intros H. rewrite <- (firstn_skipn n l). apply in_or_app. now left.
Qed.

Lemma sorted_app_inv (A : Type) (R : A -> A -> Prop) (a b : list A) :
  StronglySorted R (a ++ b) ->
  forall x y, In x a -> In y b -> R x y.
Proof.
  induction a as [|c a IH]; cbn [app]; intros Hs x y Hx Hy; [destruct Hx|].
  inversion_clear Hs as [|? ? Hs' Hc]. destruct Hx as [<-|Hx].
  - rewrite Forall_forall in Hc. apply Hc, in_or_app. now right.
  - now apply IH.
Qed.

(** X5.  When the price of every collected record parses to a finite
    number, the records [close_spider] hands to the write, whatever
    the disk does, are in descending order of [final_score], and none
    of their scores is NaN or negative. *)
Theorem ranking_with_finite_prices (U : UnicodeData) (S : ListSort)
    (hs : list hotel) :
  Forall (fun h => finite_price h = true) hs ->
  exists out : list scored,
    (forall (env : output_env) (destination : str),
        close_spider env destination {| hotels := hs |} =
        write_top env destination out) /\
    StronglySorted (descending final_score) out /\
    Forall (fun r => is_nan (final_score r) = false /\
                     (0 <=? final_score r)%float = true) out.
Proof.
  intros Hfin. eexists. split; [intros env destination; apply close_spider_ok|].
  assert (Hplain : Forall (fun r => plain (final_score r)) (map scored_of hs)).
  { rewrite Forall_map. eapply Forall_impl; [|exact Hfin].
    intros h Hh. now apply finite_price_score. }
  split.
  - apply (@sorted_firstn scored final_score), (sorted_orders final_score true).
    unfold total_keys. eapply Forall_impl; [|exact Hplain].
    intros r Hr. now apply plain_not_nan.
  - rewrite Forall_forall. intros r Hr. apply in_firstn in Hr.
    rewrite Forall_forall in Hplain.
    assert (Hin : In r (map scored_of hs)).
    { eapply Permutation_in; [apply sorted_permutes|exact Hr]. }
    specialize (Hplain r Hin).
    split; [now apply plain_not_nan|now apply plain_zero_leb].
Qed.

Lemma ranking_with_finite_prices_witness :
  exists out : list scored,
    @close_spider latin_unicode insertion_sort disk_ok (lit "Kemer")
      {| hotels := [hotel_with (lit "1 TL") false;
                    hotel_with (lit "43.990,00 TL") true] |} =
    Ok (lit "output/Kemer_scored.json", out) /\
    StronglySorted (descending final_score) out /\
    Forall (fun r => is_nan (final_score r) = false /\
                     (0 <=? final_score r)%float = true) out.
Proof.
  destruct (ranking_with_finite_prices latin_unicode insertion_sort
              [hotel_with (lit "1 TL") false;
               hotel_with (lit "43.990,00 TL") true])
    as (out & Hout & Hs & Hall); [repeat constructor|].
  exists out. split; [|split; assumption].
  rewrite Hout. apply write_top_ok. reflexivity.
Defined.

Lemma write_json_cases (env : output_env) (destination : str)
    (out : list scored) :
  (forall e, makedirs env (dirname (output_path destination)) = Raise e ->
             write_top env destination out = Raise e) /\
  (forall e, makedirs env (dirname (output_path destination)) = Ok tt ->
             open_w env (output_path destination) = Raise e ->
             write_top env destination out = Raise e) /\
  (forall e, makedirs env (dirname (output_path destination)) = Ok tt ->
             open_w env (output_path destination) = Ok tt ->
             json_dump env (output_path destination) out = Raise e ->
             write_top env destination out = Raise e) /\
  (makedirs env (dirname (output_path destination)) = Ok tt ->
   open_w env (output_path destination) = Ok tt ->
   json_dump env (output_path destination) out = Ok tt ->
   write_top env destination out = Ok (output_path destination, out)).
Proof.
  unfold write_top, write_json. repeat split.
  - now intros e ->.
  - now intros e -> ->.
  - now intros e -> -> ->.
  - now intros -> -> ->.
Qed.

(** X6.  [process_item] keeps every item, in the order of arrival.
    Each record [close_spider] hands to the write is one of the items
    processed, and the score stored with it is the final score of
    that very record.  The scoring and the sort never raise: up to
    the end of the write, [close_spider] raises exactly when
    [os.makedirs], [open] or [json.dump] does, in that order, with
    the exception of that call, and when the three succeed the file
    at the output path holds the ranked records.  The directory made
    is "output" when the destination holds no slash. *)
Theorem pipeline_writes_processed_items (U : UnicodeData) (S : ListSort)
    (env : output_env) (destination : str) (items : list hotel) :
  hotels (fold_left process_item items init) = items /\
  exists out : list scored,
    Forall (fun r => In (item r) items /\
                     compute_final_score (item r) = Ok (final_score r)) out /\
    (forall e : exn,
        makedirs env (dirname (output_path destination)) = Raise e ->
        close_spider env destination (fold_left process_item items init) =
        Raise e) /\
    (forall e : exn,
        makedirs env (dirname (output_path destination)) = Ok tt ->
        open_w env (output_path destination) = Raise e ->
        close_spider env destination (fold_left process_item items init) =
        Raise e) /\
    (forall e : exn,
        makedirs env (dirname (output_path destination)) = Ok tt ->
        open_w env (output_path destination) = Ok tt ->
        json_dump env (output_path destination) out = Raise e ->
        close_spider env destination (fold_left process_item items init) =
        Raise e) /\
    (makedirs env (dirname (output_path destination)) = Ok tt ->
     open_w env (output_path destination) = Ok tt ->
     json_dump env (output_path destination) out = Ok tt ->
     close_spider env destination (fold_left process_item items init) =
     Ok (output_path destination, out)) /\
    (~ In slash destination ->
     dirname (output_path destination) = lit "output").
Proof.
  pose proof (process_items items init) as Hacc.
  cbn [init hotels app] in Hacc. split; [exact Hacc|].
  destruct (fold_left process_item items init) as [hs] eqn:E.
  cbn [hotels] in Hacc. subst hs.
  rewrite close_spider_ok. eexists. split.
  - rewrite Forall_forall. intros r Hr. apply in_firstn in Hr.
    assert (Hin : In r (map scored_of items)).
    { eapply Permutation_in; [apply sorted_permutes|exact Hr]. }
    split.
    + apply in_map_iff in Hin. destruct Hin as (h & <- & Hh). exact Hh.
    + pose proof (score_all_items U items) as Hall.
      rewrite Forall_forall in Hall. now apply Hall.
  - destruct (write_json_cases env destination
                (firstn 10 (sorted final_score true (map scored_of items))))
      as (H1 & H2 & H3 & H4).
    split; [exact H1|]. split; [exact H2|]. split; [exact H3|].
    split; [exact H4|]. exact (dirname_output_path destination).
Qed.

Lemma pipeline_writes_processed_items_witness :
  (exists out : list scored,
     @close_spider latin_unicode insertion_sort disk_ok (lit "Kemer")
       (fold_left process_item
          [hotel_with (lit "1 TL") false; hotel_with (lit "1 TL") true] init) =
     Ok (lit "output/Kemer_scored.json", out)) /\
  @close_spider latin_unicode insertion_sort disk_read_only (lit "Kemer")
    (fold_left process_item
       [hotel_with (lit "1 TL") false; hotel_with (lit "1 TL") true] init) =
  Raise OSError.
Proof.
  split.
  - destruct (pipeline_writes_processed_items latin_unicode insertion_sort
                disk_ok (lit "Kemer")
                [hotel_with (lit "1 TL") false; hotel_with (lit "1 TL") true])
      as (_ & out & _ & _ & _ & _ & Hok & _).
    exists out. apply Hok; reflexivity.
  - destruct (pipeline_writes_processed_items latin_unicode insertion_sort
                disk_read_only (lit "Kemer")
                [hotel_with (lit "1 TL") false; hotel_with (lit "1 TL") true])
      as (_ & out & _ & Hmk & _).
    apply Hmk. reflexivity.
Defined.

(** X7.  When ten or more records were collected, exactly ten are
    handed to the write, whatever their scores; and when no score is
    NaN none of the records left out scores higher than one of the
    ten. *)
Theorem top_ten_dominates (U : UnicodeData) (S : ListSort) (hs : list hotel) :
  (10 <= List.length hs)%nat ->
  exists out rest : list scored,
    (forall (env : output_env) (destination : str),
        close_spider env destination {| hotels := hs |} =
        write_top env destination out) /\
    List.length out = 10%nat /\
    Permutation (out ++ rest) (map scored_of hs) /\
    (Forall (fun h => is_nan (score_of h) = false) hs ->
     forall r q, In r out -> In q rest ->
                 (final_score q <=? final_score r)%float = true).
Proof.
  intros Hlen.
  set (all := sorted final_score true (map scored_of hs)).
  exists (firstn 10 all), (skipn 10 all).
  split; [intros env destination; apply close_spider_ok|].
  assert (Hall : List.length all = List.length hs).
  { unfold all. rewrite (Permutation_length (sorted_permutes _ _ _)).
    apply length_map. }
  split; [rewrite length_firstn; lia|].
  split; [rewrite firstn_skipn; apply sorted_permutes|].
  intros Hnan r q Hr Hq. apply total_scores in Hnan.
  assert (Hs : StronglySorted (descending final_score) all)
    by exact (sorted_orders final_score true _ Hnan).
  rewrite <- (firstn_skipn 10 all) in Hs.
  exact (sorted_app_inv _ _ _ _ Hs r q Hr Hq).
Qed.

(** Eleven records, the last one the best, and eleven with a NaN
    score among them. *)
Definition eleven_hotels : list hotel :=
  repeat (hotel_with (lit "2 TL") false) 10 ++ [hotel_with (lit "1 TL") true].

Definition eleven_with_nan : list hotel :=
  hotel_with (lit "NaN TL") false :: repeat (hotel_with (lit "2 TL") false) 10.

Lemma top_ten_dominates_witness :
  (exists out rest : list scored,
     @close_spider latin_unicode insertion_sort disk_ok (lit "Kemer")
       {| hotels := eleven_hotels |} =
     Ok (lit "output/Kemer_scored.json", out) /\
     List.length out = 10%nat /\
     Permutation (out ++ rest)
                 (map (@scored_of latin_unicode) eleven_hotels) /\
     forall r q, In r out -> In q rest ->
                 (final_score q <=? final_score r)%float = true) /\
  (exists out : list scored,
     @close_spider latin_unicode insertion_sort disk_ok (lit "Kemer")
       {| hotels := eleven_with_nan |} =
     Ok (lit "output/Kemer_scored.json", out) /\
     List.length out = 10%nat).
Proof.
  split.
  - destruct (top_ten_dominates latin_unicode insertion_sort eleven_hotels)
      as (out & rest & Hout & Hlen & Hperm & Hdom); [vm_compute; lia|].
    exists out, rest. split; [|split; [exact Hlen|split; [exact Hperm|]]].
    + rewrite Hout. apply write_top_ok. reflexivity.
    + apply Hdom. repeat constructor.
  - destruct (top_ten_dominates latin_unicode insertion_sort eleven_with_nan)
      as (out & rest & Hout & Hlen & _); [vm_compute; lia|].
    exists out. split; [|exact Hlen].
    rewrite Hout. apply write_top_ok. reflexivity.
Defined.

End PipelinesMore.

(** ** More on [scraper/spiders/jolly_spider.py] *)

Module SpiderMore.
Import Py Scoring Spider Contract PyFacts SpiderFacts.

(** [re.search(r"<[^>]*>", s) is not None]: some [<] has a [>] after
    it. *)
Fixpoint tag_search (s : str) : bool :=
  match s with
  | [] => false
  | c :: t => ((c =? 60) && existsb (N.eqb 62) t) || tag_search t
  end.

(** The fragments [sep.join(t.strip() for t in l if t.strip())] joins. *)
Definition kept_fragments (l : list str) : list str :=
  filter (fun t => negb (str_eqb t [])) (map strip l).

(** What one URL adds to the records yielded by [parse]. *)
Definition yielded (site : str -> result detail_page) (url : str) : list hotel :=
  match parse_hotel_details site url with
  | Ok (Some detail_data) => [detail_data]
  | _ => []
  end.

Definition raises (site : str -> result detail_page) (url : str) : bool :=
  match parse_hotel_details site url with
  | Raise _ => true
  | Ok _ => false
  end.

(** *** [re.sub(r"<[^>]*>", "", s)] *)

Lemma existsb_strip_tags (f : N -> bool) (s : str) (inside : bool) :
  existsb f s = false -> existsb f (strip_tags_go inside s) = false.
Proof.
  revert inside; induction s as [|c t IH]; intros inside; [reflexivity|].
  cbn [existsb strip_tags_go]. intros H.
  apply orb_false_iff in H. destruct H as [Hc Ht].
  destruct inside; [now apply IH|].
  destruct ((c =? 60) && existsb (N.eqb 62) t); [now apply IH|].
  cbn [existsb]. now rewrite Hc, IH.
Qed.

Lemma strip_tags_go_clean (s : str) (inside : bool) :
  tag_search (strip_tags_go inside s) = false.
Proof.
  revert inside; induction s as [|c t IH]; intros inside;
    [now destruct inside|].
  cbn [strip_tags_go]. destruct inside; [apply IH|].
  destruct ((c =? 60) && existsb (N.eqb 62) t) eqn:E; [apply IH|].
  cbn [tag_search]. rewrite IH, orb_false_r.
  apply andb_false_iff in E. destruct E as [E|E]; [now rewrite E|].
  rewrite (existsb_strip_tags _ t false E). apply andb_false_r.
Qed.

Lemma strip_tags_fixed (s : str) :
  tag_search s = false -> strip_tags s = s.
Proof.
  unfold strip_tags. induction s as [|c t IH]; [reflexivity|].
  cbn [tag_search strip_tags_go]. intros H.
  apply orb_false_iff in H. destruct H as [Hc Ht].
  rewrite Hc. f_equal. now apply IH.
Qed.

(** *** [str.strip] keeps a stretch of the string *)

Lemma lstrip_suffix (f : N -> bool) (s : str) :
  exists a, s = a ++ lstrip_by f s.
Proof.
  induction s as [|c t [a IH]]; [now exists []|].
  cbn [lstrip_by]. destruct (f c); [|now exists []].
  exists (c :: a). cbn [app]. now rewrite <- IH.
Qed.

Lemma strip_infix (f : N -> bool) (s : str) :
  exists a b, s = a ++ strip_by f s ++ b.
Proof.
  destruct (lstrip_suffix f s) as [a Ha].
  destruct (lstrip_suffix f (rev (lstrip_by f s))) as [b Hb].
  exists a, (rev b). rewrite Ha at 1. f_equal. unfold strip_by.
  apply (f_equal (@rev N)) in Hb.
  now rewrite rev_involutive, rev_app_distr in Hb.
Qed.

Lemma tag_search_suffix (a s : str) :
  tag_search (a ++ s) = false -> tag_search s = false.
Proof.
  induction a as [|c a IH]; [trivial|]. cbn [app tag_search].
  intros H. apply orb_false_iff in H. now apply IH.
Qed.

Lemma tag_search_prefix (s b : str) :
  tag_search (s ++ b) = false -> tag_search s = false.
Proof.
  induction s as [|c s IH]; [reflexivity|]. cbn [app tag_search].
  intros H. apply orb_false_iff in H. destruct H as [Hc Hs].
  rewrite (IH Hs), orb_false_r.
  rewrite existsb_app in Hc.
  destruct (c =? 60); [|reflexivity]. cbn [andb] in *.
  now apply orb_false_iff in Hc.
Qed.

Lemma strip_clean (s : str) : tag_search s = false -> tag_search (strip s) = false.
Proof.
  intros H. destruct (strip_infix is_space s) as (a & b & E).
  rewrite E in H. apply tag_search_suffix in H.
  now apply tag_search_prefix in H.
Qed.

(** X8.  [re.sub(r"<[^>]*>", "", s)] leaves no tag behind: in its
    result no [<] has a [>] after it.  So a second pass changes
    nothing, and a text without a tag comes back as it is. *)
Theorem strip_tags_leaves_no_tag (s : str) :
  tag_search (strip_tags s) = false /\
  strip_tags (strip_tags s) = strip_tags s /\
  (tag_search s = false -> strip_tags s = s).
Proof.
  assert (H : tag_search (strip_tags s) = false)
    by apply strip_tags_go_clean.
  split; [exact H|]. split; [now apply strip_tags_fixed|].
  apply strip_tags_fixed.
Qed.

(** *** The record of one detail page *)

Lemma parse_hotel_details_inv (site : str -> result detail_page)
    (url : str) (h : hotel) :
  parse_hotel_details site url = Ok (Some h) ->
  exists (page : detail_page) (p : str) (badge recommended : option str),
    site (absolute_url url) = Ok page /\
    wait_price page = Ok p /\
    cancel_policy_badge page = Ok badge /\
    general_info_tab page = Ok tt /\
    h = {| detail_page_url := Some (absolute_url url);
           hotel_name := option_map strip (sel_hotel_name page);
           price := Some p;
           location := sel_location page;
           accommodation_types :=
             Some (join_stripped [] (sel_accommodation page));
           checkin_time := sel_checkin page;
           checkout_time := sel_checkout page;
           hotel_features :=
             Some (join_stripped (lit ", ") (sel_features page));
           cancel_policy :=
             Some (strip (strip_tags (match badge with
                                      | Some s => s
                                      | None => []
                                      end)));
           recomended_hotel := recommended |}.
Proof.
  unfold parse_hotel_details. cbv zeta.
  destruct (site (absolute_url url)) as [page|e]; [|discriminate].
  cbn [bind]. destruct (wait_price page) as [p|e] eqn:Hp; [|discriminate].
  cbn [bind].
  destruct (cancel_policy_badge page) as [badge|e] eqn:Hb; [|discriminate].
  cbn [bind].
  destruct (match detail_recommend page with
            | Ok a => Ok a
            | Raise NoSuchElementException => Ok None
            | Raise e => Raise e
            end) as [r|e]; [|discriminate].
  cbn [bind].
  destruct (general_info_tab page) as [[]|e] eqn:Hg;
    [|destruct e; discriminate].
  intros H. injection H as <-. now exists page, p, badge, r.
Qed.

(** X9.  A record that [parse_hotel_details] returns carries a text,
    never [None], under "price", "cancel_policy", "accommodation_types"
    and "hotel_features", the keys on which the scorer calls string
    methods; its cancellation text holds no tag, and its URL is the
    one that was opened. *)
Theorem yielded_record_has_text (site : str -> result detail_page)
    (url : str) (h : hotel) :
  parse_hotel_details site url = Ok (Some h) ->
  detail_page_url h = Some (absolute_url url) /\
  (exists p, price h = Some p) /\
  (exists c, cancel_policy h = Some c /\ tag_search c = false) /\
  (exists a, accommodation_types h = Some a) /\
  (exists f, hotel_features h = Some f).
Proof.
  intros H.
  destruct (parse_hotel_details_inv site url h H)
    as (page & p & badge & r & _ & _ & _ & _ & ->).
  cbn [detail_page_url price cancel_policy accommodation_types hotel_features].
  split; [reflexivity|]. split; [now exists p|].
  split; [|split; eexists; reflexivity].
  eexists. split; [reflexivity|]. apply strip_clean, strip_tags_go_clean.
Qed.

Lemma yielded_record_has_text_witness :
  exists h : hotel,
    parse_hotel_details example_site (lit "/hotel") = Ok (Some h) /\
    detail_page_url h = Some (lit "https://www.jollytur.com/hotel") /\
    cancel_policy h = Some (lit "Risksiz rezervasyon dahil").
Proof.
  eexists. split; [vm_compute; reflexivity|].
  destruct (yielded_record_has_text example_site (lit "/hotel") _
              ltac:(vm_compute; reflexivity)) as (Hu & _).
  split; [exact Hu|reflexivity].
Defined.

(** *** From the feature list of the page to the score *)

Lemma kept_nonempty (l : list str) : Forall (fun t => t <> []) (kept_fragments l).
Proof.
  unfold kept_fragments. apply Forall_forall. intros t Ht.
  apply filter_In in Ht. destruct Ht as [_ Ht]. intros ->.
  discriminate Ht.
Qed.

Lemma join_commas (kept : list str) :
  kept <> [] ->
  S (count_commas (join (lit ", ") kept)) =
  (List.length kept + list_sum (map count_commas kept))%nat.
Proof.
  change (lit ", ") with [44; 32]. unfold count_commas.
  induction kept as [|p rest IH]; [congruence|]. intros _.
  destruct rest as [|q rest].
  - cbn [join List.length map list_sum fold_right]. lia.
  - assert (Hq : q :: rest <> []) by discriminate.
    specialize (IH Hq). change (join [44; 32] (p :: q :: rest))
      with (p ++ [44; 32] ++ join [44; 32] (q :: rest)).
    rewrite !count_occ_app.
    change (count_occ N.eq_dec [44; 32] comma) with 1%nat.
    cbn [List.length map list_sum fold_right] in *. lia.
Qed.

(** X10.  The feature bonus of a record the spider returns: the
    non-blank fragments of the page's feature list are joined with
    commas, and the scorer splits at commas again, so the record earns
    [0.05] for every non-blank fragment and for every comma inside
    one; a page without such a fragment earns nothing. *)
Theorem features_scored_per_fragment (site : str -> result detail_page)
    (url : str) (h : hotel) :
  parse_hotel_details site url = Ok (Some h) ->
  exists page : detail_page,
    site (absolute_url url) = Ok page /\
    forall base_score : float,
      score_features h base_score =
      match kept_fragments (sel_features page) with
      | [] => base_score
      | kept =>
        (base_score +
         c_0_05 * float_of_nat (List.length kept +
                                list_sum (map count_commas kept)))%float
      end.
Proof.
  intros H.
  destruct (parse_hotel_details_inv site url h H)
    as (page & p & badge & r & Hs & _ & _ & _ & ->).
  exists page. split; [exact Hs|]. intros b.
  unfold score_features. cbn [hotel_features get_str].
  unfold join_stripped. fold (kept_fragments (sel_features page)).
  pose proof (kept_nonempty (sel_features page)) as Hne.
  destruct (kept_fragments (sel_features page)) as [|t kept] eqn:E;
    [reflexivity|].
  pose proof (join_commas (t :: kept) ltac:(discriminate)) as Hc.
  inversion_clear Hne as [|? ? Ht _].
  destruct (join (lit ", ") (t :: kept)) as [|c s] eqn:Ej.
  { destruct t; [congruence|]. destruct kept; discriminate Ej. }
  rewrite length_map, split_length. fold (count_commas (c :: s)).
  now rewrite Hc.
Qed.

Lemma features_scored_per_fragment_witness :
  exists h : hotel,
    parse_hotel_details example_site (lit "/hotel") = Ok (Some h) /\
    score_features h 0 = (0 + c_0_05 * float_of_nat 2)%float.
Proof.
  eexists. split; [vm_compute; reflexivity|].
  destruct (features_scored_per_fragment example_site (lit "/hotel") _
              ltac:(vm_compute; reflexivity)) as (page & Hp & Hscore).
  vm_compute in Hp. injection Hp as <-. exact (Hscore 0%float).
Defined.

(** *** The loop over the URLs *)

Lemma parse_details_ok (site : str -> result detail_page) (urls : list str) :
  Forall (fun u => raises site u = false) urls ->
  parse_details site urls = (flat_map (yielded site) urls, Ok tt).
Proof.
  induction 1 as [|u urls Hu _ IH]; [reflexivity|].
  cbn [parse_details flat_map]. unfold raises, yielded in *.
  destruct (parse_hotel_details site u) as [[h|]|e]; [| |discriminate Hu].
  - now rewrite IH.
  - exact IH.
Qed.

(** X11.  The loop of [parse] over the URLs: while no detail page
    raises, the records come out in the order of the URLs, one for
    each page that has its "Genel Bilgiler" tab, and the loop ends
    normally; the first page that raises ends it with that exception,
    after the records of the URLs before it. *)
Theorem parse_details_until_first_exception
    (site : str -> result detail_page) (pre : list str) :
  Forall (fun u => raises site u = false) pre ->
  parse_details site pre = (flat_map (yielded site) pre, Ok tt) /\
  forall (u : str) (post : list str) (e : exn),
    parse_hotel_details site u = Raise e ->
    parse_details site (pre ++ u :: post) =
    (flat_map (yielded site) pre, Raise e).
Proof.
  intros Hpre. split; [now apply parse_details_ok|].
  intros u post e He.
  induction Hpre as [|v pre Hv _ IH]; cbn [app parse_details flat_map].
  - now rewrite He.
  - unfold raises, yielded in *.
    destruct (parse_hotel_details site v) as [[h|]|e']; [| |discriminate Hv].
    + now rewrite IH.
    + exact IH.
Qed.

Lemma parse_details_until_first_exception_witness :
  exists h : hotel,
    parse_details example_site [lit "/hotel"; lit "/no-tab"; lit "/hotel"] =
    ([h; h], Ok tt) /\
    parse_details example_site
      ([lit "/hotel"; lit "/no-tab"; lit "/hotel"]
         ++ lit "/no-price" :: [lit "/hotel"]) =
    ([h; h], Raise TimeoutException).
Proof.
  destruct (parse_details_until_first_exception example_site
              [lit "/hotel"; lit "/no-tab"; lit "/hotel"])
    as [Hok Hraise]; [repeat constructor|].
  eexists. split; [rewrite Hok; vm_compute; reflexivity|].
  rewrite (Hraise (lit "/no-price") [lit "/hotel"] TimeoutException);
    vm_compute; reflexivity.
Defined.

(** X12.  The URL that is opened: a path gets the site's address in
    front, anything else is taken as it is, and a URL made absolute
    stays as it is when made absolute again. *)
Theorem absolute_url_idempotent (partial_url : str) :
  absolute_url (absolute_url partial_url) = absolute_url partial_url /\
  (starts_with (lit "/") partial_url = true ->
   absolute_url partial_url = lit "https://www.jollytur.com" ++ partial_url) /\
  (starts_with (lit "/") partial_url = false ->
   absolute_url partial_url = partial_url).
Proof.
  split; [|split; intros E; unfold absolute_url; now rewrite E].
  destruct (starts_with (lit "/") partial_url) eqn:E.
  - replace (absolute_url partial_url)
      with (lit "https://www.jollytur.com" ++ partial_url)
      by (unfold absolute_url; now rewrite E).
    vm_compute. reflexivity.
  - replace (absolute_url partial_url) with partial_url
      by (unfold absolute_url; now rewrite E).
    unfold absolute_url. now rewrite E.
Qed.

End SpiderMore.

(** ** More on [jolly_selenium.py] *)


Module SeleniumMore.
Import Py Selenium RoomCount SeleniumFacts.
Import Scoring(latin_unicode).

(** *** [scroll_until_element_visible] *)

Lemma scroll_while_first (page : listing_page) (clicks : nat) :
  forall (n r : nat) (y : Z),
    (n <= r)%nat ->
    (forall i, (i < n)%nat ->
       in_viewport page clicks (y + scroll_step * Z.of_nat i) = Ok false) ->
    (forall i, (i < n)%nat ->
       scroll_by page clicks (y + scroll_step * Z.of_nat i) = Ok tt) ->
    in_viewport page clicks (y + scroll_step * Z.of_nat n) = Ok true ->
    scroll_while page clicks r y = Ok (y + scroll_step * Z.of_nat n)%Z.
Proof.
  induction n as [|n IH]; intros r y Hr Hbefore Hscroll Hat.
  - rewrite Z.mul_0_r, Z.add_0_r in *.
    destruct r; cbn [scroll_while]; now rewrite Hat.
  - destruct r as [|r]; [lia|]. cbn [scroll_while].
    pose proof (Hbefore 0%nat ltac:(lia)) as H0.
    rewrite Z.mul_0_r, Z.add_0_r in H0. rewrite H0.
    pose proof (Hscroll 0%nat ltac:(lia)) as Hs0.
    rewrite Z.mul_0_r, Z.add_0_r in Hs0. rewrite Hs0.
    rewrite (IH r (y + scroll_step)%Z).
    + f_equal. lia.
    + lia.
    + intros i Hi. specialize (Hbefore (S i) ltac:(lia)).
      rewrite <- Hbefore. f_equal. lia.
    + intros i Hi. specialize (Hscroll (S i) ltac:(lia)).
      rewrite <- Hscroll. f_equal. lia.
    + rewrite <- Hat. f_equal. lia.
Qed.

(** X13.  [scroll_until_element_visible] stops at the first scroll
    position, among the start and the fifty steps of 550 pixels below
    it, at which the element is in the viewport, and returns the
    element there; the scrolls up to that position are made. *)
Theorem scroll_stops_at_first_visible (page : listing_page)
    (clicks n : nat) (y : Z) :
  find_status page clicks = Ok tt ->
  (n <= 50)%nat ->
  (forall i, (i < n)%nat ->
     in_viewport page clicks (y + 550 * Z.of_nat i) = Ok false) ->
  (forall i, (i < n)%nat ->
     scroll_by page clicks (y + 550 * Z.of_nat i) = Ok tt) ->
  in_viewport page clicks (y + 550 * Z.of_nat n) = Ok true ->
  scroll_until_element_visible page clicks y =
  Ok (true, (y + 550 * Z.of_nat n)%Z).
Proof.
  intros Hf Hn Hbefore Hscroll Hat. unfold scroll_until_element_visible.
  rewrite Hf.
  rewrite (scroll_while_first page clicks n max_scrolls y Hn Hbefore Hscroll Hat).
  cbn [bind]. change scroll_step with 550%Z. now rewrite Hat.
Qed.

Lemma scroll_stops_at_first_visible_witness :
  scroll_until_element_visible page_without_button 3 0 = Ok (true, 1100%Z).
Proof.
  apply (scroll_stops_at_first_visible page_without_button 3 2 0).
  - reflexivity.
  - lia.
  - intros i Hi. destruct i as [|[|i]]; [reflexivity|reflexivity|lia].
  - reflexivity.
  - reflexivity.
Defined.

(** *** What the loader reports *)

Lemma scroll_result_view (page : listing_page) (clicks : nat) (y y' : Z)
    (v : bool) :
  scroll_until_element_visible page clicks y = Ok (v, y') ->
  (v = false /\ exists e, find_status page clicks = Raise e) \/
  in_viewport page clicks y' = Ok v.
Proof.
  unfold scroll_until_element_visible.
  destruct (find_status page clicks) as [u|e].
  - destruct (scroll_while page clicks max_scrolls y) as [y1|e];
      [|discriminate].
    cbn [bind]. destruct (in_viewport page clicks y1) as [b|e] eqn:E;
      [|discriminate].
    cbn [bind]. intros H. injection H as <- <-. now right.
  - intros H. injection H as <- <-. left. split; [reflexivity|now exists e].
Qed.

(** What holds of the pass in which the loader halts. *)
Definition halted_because {U : UnicodeData} (page : listing_page)
    (r : loader_end) : Prop :=
  match why r with
  | AllDisplayed =>
    in_viewport page (clicks_made r) (scrolled r) = Ok true /\
    exists text, status_text page (clicks_made r) = Ok text /\
                 complete text = true
  | ClickFailed =>
    in_viewport page (clicks_made r) (scrolled r) = Ok true /\
    (exists text, status_text page (clicks_made r) = Ok text /\
                  complete text = false) /\
    exists e, click_next page (clicks_made r) = Raise e
  | StatusNotVisible =>
    (exists e, find_status page (clicks_made r) = Raise e) \/
    in_viewport page (clicks_made r) (scrolled r) = Ok false
  end.

Lemma loader_loop_sound (U : UnicodeData) (page : listing_page) :
  forall (fuel clicks : nat) (y : Z) (r : loader_end),
    loader_loop page fuel clicks y = Some (Ok r) ->
    (clicks <= clicks_made r < clicks + fuel)%nat /\
    (forall i, (clicks <= i < clicks_made r)%nat ->
       click_next page i = Ok tt /\
       exists text, status_text page i = Ok text /\ complete text = false) /\
    halted_because page r.
Proof.
  induction fuel as [|fuel IH]; intros clicks y r; [discriminate|].
  cbn [loader_loop].
  destruct (scroll_until_element_visible page clicks y) as [[v y']|e] eqn:Es;
    [|discriminate].
  apply scroll_result_view in Es. destruct v.
  - destruct Es as [[Hv _]|Hview]; [discriminate Hv|].
    destruct (status_text page clicks) as [text|e] eqn:Et; [|discriminate].
    destruct (contains _ (str_lower (strip text))) eqn:Ec.
    + intros H. injection H as <-. cbn [clicks_made].
      split; [lia|]. split; [intros i Hi; lia|].
      unfold halted_because. cbn [why clicks_made scrolled].
      split; [exact Hview|]. now exists text.
    + destruct (click_next page clicks) as [[]|e] eqn:En.
      * intros H. apply IH in H. destruct H as (Hr & Hclicks & Hhalt).
        split; [lia|]. split; [|exact Hhalt].
        intros i Hi. destruct (Nat.eq_dec i clicks) as [->|Hne].
        -- split; [exact En|now exists text].
        -- apply Hclicks. lia.
      * intros H. injection H as <-. cbn [clicks_made].
        split; [lia|]. split; [intros i Hi; lia|].
        unfold halted_because. cbn [why clicks_made scrolled].
        split; [exact Hview|]. split; [now exists text|now exists e].
  - intros H. injection H as <-. cbn [clicks_made].
    split; [lia|]. split; [intros i Hi; lia|].
    unfold halted_because. cbn [why clicks_made scrolled].
    destruct Es as [[_ He]|Hview]; [now left|now right].
Qed.

(** X14.  What the loader reports is what it saw.  When it ends, every
    "load more" click it counts was made on a status text without the
    completion phrase and succeeded; it reports that all items are
    displayed only after reading the phrase from a status element in
    the viewport, a failed click only when the button raised, and an
    invisible status only when the element was not found or was out of
    the viewport where the scrolling stopped. *)
Theorem loader_reports_what_it_saw (U : UnicodeData) (page : listing_page)
    (fuel : nat) (r : loader_end) :
  scroll_and_click_until_all_displayed page fuel = Some (Ok r) ->
  (clicks_made r < fuel)%nat /\
  (forall i, (i < clicks_made r)%nat ->
     click_next page i = Ok tt /\
     exists text, status_text page i = Ok text /\ complete text = false) /\
  halted_because page r.
Proof.
  unfold scroll_and_click_until_all_displayed. intros H.
  apply loader_loop_sound in H. destruct H as (Hr & Hclicks & Hhalt).
  split; [lia|]. split; [|exact Hhalt].
  intros i Hi. apply Hclicks. lia.
Qed.

Lemma loader_reports_what_it_saw_witness :
  @halted_because latin_unicode page_without_button
    {| why := ClickFailed; clicks_made := 0; scrolled := 1100 |}.
Proof.
  apply (loader_reports_what_it_saw latin_unicode page_without_button 1
           {| why := ClickFailed; clicks_made := 0; scrolled := 1100 |}).
  vm_compute. reflexivity.
Defined.

Lemma scroll_while_raises (page : listing_page) (clicks : nat) (e : exn) :
  forall (r : nat) (y : Z),
    scroll_while page clicks r y = Raise e ->
    exists y', in_viewport page clicks y' = Raise e \/
               scroll_by page clicks y' = Raise e.
Proof.
  induction r as [|r IH]; intros y; cbn [scroll_while];
    destruct (in_viewport page clicks y) as [[|]|e0] eqn:Ev;
    try discriminate.
  - intros H. injection H as <-. exists y. now left.
  - destruct (scroll_by page clicks y) as [u|e0] eqn:Es.
    + apply IH.
    + intros H. injection H as <-. exists y. now right.
  - intros H. injection H as <-. exists y. now left.
Qed.

Lemma scroll_raises (page : listing_page) (clicks : nat) (y : Z) (e : exn) :
  scroll_until_element_visible page clicks y = Raise e ->
  exists y', in_viewport page clicks y' = Raise e \/
             scroll_by page clicks y' = Raise e.
Proof.
  unfold scroll_until_element_visible.
  destruct (find_status page clicks) as [u|e0]; [|discriminate].
  destruct (scroll_while page clicks max_scrolls y) as [y1|e1] eqn:E.
  - cbn [bind]. destruct (in_viewport page clicks y1) as [b|e1] eqn:Ev;
      [discriminate|].
    cbn [bind]. intros H. injection H as <-. exists y1. now left.
  - cbn [bind]. intros H. injection H as <-.
    exact (scroll_while_raises page clicks e1 max_scrolls y E).
Qed.

Lemma loader_raises (U : UnicodeData) (page : listing_page) (e : exn) :
  forall (fuel clicks : nat) (y : Z),
    loader_loop page fuel clicks y = Some (Raise e) ->
    exists i, (clicks <= i < clicks + fuel)%nat /\
              ((exists y, in_viewport page i y = Raise e) \/
               (exists y, scroll_by page i y = Raise e) \/
               status_text page i = Raise e).
Proof.
  induction fuel as [|fuel IH]; intros clicks y; [discriminate|].
  cbn [loader_loop].
  destruct (scroll_until_element_visible page clicks y) as [[v y']|e0] eqn:Es.
  - destruct v; [|discriminate].
    destruct (status_text page clicks) as [text|e0] eqn:Et.
    + destruct (contains _ (str_lower (strip text))); [discriminate|].
      destruct (click_next page clicks) as [u|e0]; [|discriminate].
      intros H. apply IH in H. destruct H as (i & Hi & H).
      exists i. split; [lia|exact H].
    + intros H. injection H as ->. exists clicks.
      split; [lia|]. right. now right.
  - intros H. injection H as ->. apply scroll_raises in Es.
    destruct Es as (y' & [Hv|Hs]); exists clicks; (split; [lia|]).
    + left. now exists y'.
    + right. left. now exists y'.
Qed.

(** X15.  An exception leaves the loader only from one of its two
    scripts, the viewport test and the scroll, or from reading the
    text of the status element: a status element that is missing and
    a button that cannot be clicked never raise.  And each of the
    three does leave it: a viewport test that raises, a scroll that
    raises when the element is found out of view, and a text that
    cannot be read once the element is in view, end the loop with
    that exception. *)
Theorem loader_raises_only_from_script_or_text :
  (forall (U : UnicodeData) (page : listing_page) (fuel : nat) (e : exn),
      scroll_and_click_until_all_displayed page fuel = Some (Raise e) ->
      exists i : nat,
        (i < fuel)%nat /\
        ((exists y, in_viewport page i y = Raise e) \/
         (exists y, scroll_by page i y = Raise e) \/
         status_text page i = Raise e)) /\
  (forall (U : UnicodeData) (page : listing_page) (fuel clicks : nat)
          (y : Z) (e : exn),
      find_status page clicks = Ok tt ->
      in_viewport page clicks y = Raise e ->
      loader_loop page (S fuel) clicks y = Some (Raise e)) /\
  (forall (U : UnicodeData) (page : listing_page) (fuel clicks : nat)
          (y : Z) (e : exn),
      find_status page clicks = Ok tt ->
      in_viewport page clicks y = Ok false ->
      scroll_by page clicks y = Raise e ->
      loader_loop page (S fuel) clicks y = Some (Raise e)) /\
  (forall (U : UnicodeData) (page : listing_page) (fuel clicks : nat)
          (y y' : Z) (e : exn),
      scroll_until_element_visible page clicks y = Ok (true, y') ->
      status_text page clicks = Raise e ->
      loader_loop page (S fuel) clicks y = Some (Raise e)).
Proof.
  split; [|split; [|split]].
  - intros U page fuel e Hl. unfold scroll_and_click_until_all_displayed in Hl.
    apply loader_raises in Hl. destruct Hl as (i & Hi & Hl).
    exists i. split; [lia|exact Hl].
  - intros U page fuel clicks y e Hf Hv. cbn [loader_loop].
    unfold scroll_until_element_visible, max_scrolls. rewrite Hf.
    cbn [scroll_while]. now rewrite Hv.
  - intros U page fuel clicks y e Hf Hv Hs. cbn [loader_loop].
    unfold scroll_until_element_visible, max_scrolls. rewrite Hf.
    cbn [scroll_while]. now rewrite Hv, Hs.
  - intros U page fuel clicks y y' e Hs Ht. cbn [loader_loop].
    now rewrite Hs, Ht.
Qed.

(** A page whose status element has gone stale when its text is read,
    and a page on which the scroll script fails. *)
Definition page_stale : listing_page :=
  {| find_status := fun _ => Ok tt;
     in_viewport := fun _ _ => Ok true;
     scroll_by := fun _ _ => Ok tt;
     status_text := fun _ => Raise WebDriverException;
     click_next := fun _ => Ok tt |}.

Definition page_scroll_fails : listing_page :=
  {| find_status := fun _ => Ok tt;
     in_viewport := fun _ _ => Ok false;
     scroll_by := fun _ _ => Raise WebDriverException;
     status_text := fun _ => Ok (lit "12 / 40");
     click_next := fun _ => Ok tt |}.

Lemma loader_raises_only_from_script_or_text_witness :
  (exists i : nat,
     (i < 4)%nat /\
     ((exists y, in_viewport page_stale i y = Raise WebDriverException) \/
      (exists y, scroll_by page_stale i y = Raise WebDriverException) \/
      status_text page_stale i = Raise WebDriverException)) /\
  @loader_loop latin_unicode page_scroll_fails 1 0 0 =
  Some (Raise WebDriverException) /\
  @loader_loop latin_unicode page_stale 1 0 0 =
  Some (Raise WebDriverException).
Proof.
  destruct loader_raises_only_from_script_or_text
    as (Honly & _ & Hscroll & Htext).
  split; [|split].
  - apply (Honly latin_unicode page_stale 4%nat WebDriverException).
    reflexivity.
  - apply (Hscroll latin_unicode page_scroll_fails 0%nat 0%nat 0%Z
                   WebDriverException); reflexivity.
  - apply (Htext latin_unicode page_stale 0%nat 0%nat 0%Z 0%Z
                 WebDriverException); reflexivity.
Defined.

(** *** [adjust_room_count] *)

Lemma dec_loop_counter (hi : Z) :
  forall (fuel : nat) (c : Z),
    (c <= Z.of_nat fuel)%Z -> (0 < fuel)%nat ->
    dec_loop (counter_widget 1 hi) fuel c c = Some (Ok (Z.min c 1)).
Proof.
  induction fuel as [|fuel IH]; intros c Hc Hf; [lia|].
  cbn [dec_loop]. destruct (Z.ltb_spec 1 c) as [Hlt|Hge].
  - cbn [click_dec find_adult_number counter_widget].
    rewrite IH by lia. f_equal. f_equal. lia.
  - f_equal. f_equal. lia.
Qed.

Lemma inc_loop_counter (lo hi : Z) :
  forall (n : nat) (s : Z),
    (s <= hi)%Z ->
    inc_loop (counter_widget lo hi) n s = Ok (Z.min hi (s + Z.of_nat n)).
Proof.
  induction n as [|n IH]; intros s Hs; cbn [inc_loop].
  - f_equal. lia.
  - cbn [click_inc counter_widget bind]. rewrite IH by lia. f_equal. lia.
Qed.

(** X16.  On a dropdown that shows [c], at least one, and whose
    buttons move the number by one between 1 and [hi],
    [adjust_room_count] first brings the number down to one and then
    up to the wanted count, capped at nine and at [hi], and to one
    when fewer than one adult is asked for. *)
Theorem adjust_room_count_sets_adults (hi c adult_count : Z) (fuel : nat) :
  (1 <= c)%Z -> (1 <= hi)%Z -> (c <= Z.of_nat fuel)%Z ->
  adjust_room_count (counter_widget 1 hi) fuel c adult_count =
  Some (Ok (Z.min hi (Z.max 1 (Z.min adult_count 9)))).
Proof.
  intros Hc Hhi Hf. unfold adjust_room_count.
  cbn [wait_dropdown click_dropdown wait_adult_number counter_widget bind].
  rewrite dec_loop_counter by lia.
  replace (Z.min c 1) with 1%Z by lia.
  rewrite inc_loop_counter by lia. f_equal. f_equal.
  destruct (Z.ltb_spec 9 adult_count); lia.
Qed.

Lemma adjust_room_count_sets_adults_witness :
  adjust_room_count (counter_widget 1 12) 5 2%Z 3 = Some (Ok 3%Z) /\
  adjust_room_count (counter_widget 1 12) 5 4%Z 11 = Some (Ok 9%Z).
Proof.
  split.
  - apply (adjust_room_count_sets_adults 12 2 3 5); lia.
  - apply (adjust_room_count_sets_adults 12 4 11 5); lia.
Defined.

Lemma dec_loop_stuck (W : Type) (widget : room_widget W) (stuck : W -> Prop) :
  (forall w, stuck w ->
     exists w' c, click_dec widget w = Ok w' /\ stuck w' /\
                  find_adult_number widget w' = Ok c /\ (1 < c)%Z) ->
  forall (fuel : nat) (w : W) (c : Z),
    stuck w -> (1 < c)%Z -> dec_loop widget fuel w c = None.
Proof.
  intros Hstep. induction fuel as [|fuel IH]; intros w c Hw Hc;
    [reflexivity|].
  cbn [dec_loop]. destruct (Z.ltb_spec 1 c) as [_|Hle]; [|lia].
  destruct (Hstep w Hw) as (w' & c' & -> & Hw' & -> & Hc').
  now apply IH.
Qed.

(** X17.  The decrement loop of [adjust_room_count] has no bound of
    its own: on a dropdown that opens showing more than one adult and
    keeps showing more than one after every click on its minus
    button, the function is still running after any number of
    passes. *)
Theorem adjust_room_count_has_no_bound (W : Type) (widget : room_widget W)
    (stuck : W -> Prop) (w w1 w2 : W) (c adult_count : Z) :
  (forall s, stuck s ->
     exists s' n, click_dec widget s = Ok s' /\ stuck s' /\
                  find_adult_number widget s' = Ok n /\ (1 < n)%Z) ->
  wait_dropdown widget w = Ok tt ->
  click_dropdown widget w = Ok w1 ->
  click_dropdown widget w1 = Ok w2 ->
  wait_adult_number widget w2 = Ok c ->
  stuck w2 -> (1 < c)%Z ->
  forall fuel : nat, adjust_room_count widget fuel w adult_count = None.
Proof.
  intros Hstep Hwait H1 H2 Hread Hw Hc fuel. unfold adjust_room_count.
  rewrite Hwait, H1. cbn [bind]. rewrite H2, Hread.
  now rewrite (dec_loop_stuck W widget stuck Hstep fuel w2 c Hw Hc).
Qed.

Lemma adjust_room_count_has_no_bound_witness :
  adjust_room_count (counter_widget 2 9) 100 2%Z 3 = None.
Proof.
  apply (adjust_room_count_has_no_bound Z (counter_widget 2 9)
           (fun s => s = 2%Z) 2%Z 2%Z 2%Z 2%Z 3%Z); try reflexivity.
  intros s ->. exists 2%Z, 2%Z. repeat split.
Defined.

End SeleniumMore.
